(** * beacon-kit: merkleization, event server, blob processor and
    finalize-block middleware

    A shallow embedding of pieces of the repository and the properties its
    specification states about them, with further properties of the same
    code:

    - [Merkle]: [crypto/sha256/merkleize.go]
    - [Server]: [mod/async/pkg/server/event.go]
    - [Blob]: the blob [Processor] (package [blob])
    - [Middleware]: the [FinalizeBlockMiddleware] (package [middleware])
    - [Bytes]: [mod/primitives/pkg/bytes/utils.go]
    - [Builder]: [mod/cli/pkg/builder/options.go]

    Go values are modelled as the code has them: a [uint64] is a [Z] (the
    range [0 <= v < 2^64] is a hypothesis where a proof needs it), a slice is
    a [list], a [[32]byte] root is a list of bytes, a Go [map] is a [gmap];
    a function that returns [(T, error)] and can also fail at run time with
    an index out of range returns an [outcome]. *)

From Stdlib Require Import ZArith Lia.
From stdpp Require Import base option list gmap strings.

Local Open Scope Z_scope.

(** ** Results of Go calls *)

Module Go.

(** A run-time panic: an index outside of a slice, or [panic(err)]. *)
Inductive panic : Type :=
| IndexOutOfRange (i len : nat)
| PanicError (msg : string).

(** What a call of a Go function with result [(A, error)] comes to: a value
    with a nil error, a non-nil error (built by [errors.New], so a message),
    or a panic. *)
Inductive outcome (A : Type) : Type :=
| Ok (a : A)
| Err (msg : string)
| Panic (p : panic).

Arguments Ok {A} a.
Arguments Err {A} msg.
Arguments Panic {A} p.

#[global] Instance outcome_ret : MRet outcome := λ A a, Ok a.

#[global] Instance outcome_bind : MBind outcome := λ A B f m,
  match m with
  | Ok a => f a
  | Err e => Err e
  | Panic p => Panic p
  end.

#[global] Instance outcome_fmap : FMap outcome := λ A B f m,
  match m with
  | Ok a => Ok (f a)
  | Err e => Err e
  | Panic p => Panic p
  end.

(** [l[i]]: the element, or the index-out-of-range panic. *)
Definition index {A} (l : list A) (i : nat) : outcome A :=
  match l !! i with
  | Some a => Ok a
  | None => Panic (IndexOutOfRange i (length l))
  end.

Definition is_Ok {A} (m : outcome A) : Prop := ∃ a, m = Ok a.
Definition is_Err {A} (m : outcome A) : Prop := ∃ e, m = Err e.

(** Code that calls into stateful collaborators threads their state [W]. *)
Definition StateM (W A : Type) : Type := W → A * W.

#[global] Instance StateM_ret {W} : MRet (StateM W) := λ A a w, (a, w).

#[global] Instance StateM_bind {W} : MBind (StateM W) := λ A B f m w,
  let '(a, w') := m w in f a w'.

(** [defer d; body]: the deferred call runs when the body has returned. *)
Definition defer {W A} (d : StateM W unit) (body : StateM W A) : StateM W A :=
  λ w, let '(a, w') := body w in (a, (d w').2).

Lemma index_lt {A} (l : list A) (i : nat) :
  (i < length l)%nat → ∃ a, l !! i = Some a ∧ index l i = Ok a.
Proof.
  intros Hi. destruct (lookup_lt_is_Some_2 l i Hi) as [a Ha].
  exists a. split; [done|]. unfold index. by rewrite Ha.
Qed.

Lemma index_nil {A} (i : nat) : index (@nil A) i = Panic (IndexOutOfRange i 0).
Proof. reflexivity. Qed.

End Go.

Import Go.

(** ** crypto/sha256/merkleize.go *)

Module Merkle.

(** [tree.Root], a [[32]byte]. *)
Definition Root : Type := list Byte.byte.

(** [tree.Root{}], the zero value: 32 zero bytes. *)
Definition zero_root : Root := replicate 32 Byte.x00.

(** [tree.GetHashFn()] of the ztyp library: the hash of two roots, the
    length mixin and the root of a byte list.  SHA-256 itself is outside of the
    repository; the development holds for every such function. *)
Class HashFn : Type := {
  Combine : Root → Root → Root;
  Mixin : Root → Z → Root;
  ByteListHTR : list Byte.byte → Z → Root;
}.

(** The [Hashable] constraint: [HashTreeRoot() ([32]byte, error)]. *)
Class Hashable (T : Type) : Type :=
  HashTreeRootOf : T → Root + string.

Section merkleize.
Context {hf : HashFn}.

(** [tree.CoverDepth] of the ztyp library, the depth of the tree that covers
    [v] leaves: 0 for [v <= 1], and [ceil(log2 v)] above. *)
Definition CoverDepth (v : Z) : Z := Z.log2_up v.

Fixpoint zero_hashes_from (n : nat) (z : Root) : list Root :=
  match n with
  | O => []
  | S n' => z :: zero_hashes_from n' (Combine z z)
  end.

(** [tree.ZeroHashes] of the ztyp library: 65 roots, the zero root at index
    0 and at [i+1] the hash of two copies of the root at [i]. *)
Definition ZeroHashes : list Root := zero_hashes_from 65 zero_root.

Fixpoint hash_pairs (l : list Root) : list Root :=
  match l with
  | a :: b :: rest => Combine a b :: hash_pairs rest
  | _ => []
  end.

(** Modelled from the spec: the code of [HashTreeRoot] of package [sha256] is
    missing.  It hashes the roots of a level two by two into the next level,
    half as long ("hash pairs of elements together to form a new level of the
    tree"); a level of odd length cannot be paired and is an error. *)
Definition HashTreeRoot (roots : list Root) : outcome (list Root) :=
  if Nat.even (length roots) then Ok (hash_pairs roots)
  else Err "odd number of chunks".

(** [SSZBytes.HashTreeRoot]. *)
Definition SSZBytes_HashTreeRoot (s : list Byte.byte) : Root + string :=
  inl (ByteListHTR s (Z.of_nat (length s))).

(** The loop of [SafeMerkleizeVector], [n] iterations from level [i] on,
    and the final [roots[0]]. *)
Fixpoint merkleize_levels (n : nat) (i : nat) (roots : list Root)
  : outcome Root :=
  match n with
  | O => index roots 0
  | S n' =>
    if negb (length roots mod 2 =? 0)%nat then
      z ← index ZeroHashes i;
      roots' ← HashTreeRoot (roots ++ [z]);
      merkleize_levels n' (S i) roots'
    else if (length roots =? 0)%nat then
      index ZeroHashes i
    else
      roots' ← HashTreeRoot roots;
      merkleize_levels n' (S i) roots'
  end.

Definition SafeMerkleizeVector (roots : list Root) (maxRootsAllowed : Z)
  : outcome Root :=
  if maxRootsAllowed <? Z.of_nat (length roots) then
    Err "merkleizing list exceeds the maximum allowed number of elements"
  else
    merkleize_levels (Z.to_nat (CoverDepth maxRootsAllowed)) 0 roots.

(** Panics with the error of [SafeMerkleizeVector], if any. *)
Definition UnsafeMerkleizeVector (roots : list Root) (maxRootsAllowed : Z)
  : outcome Root :=
  match SafeMerkleizeVector roots maxRootsAllowed with
  | Ok root => Ok root
  | Err e => Panic (PanicError e)
  | Panic p => Panic p
  end.

Definition UnsafeMerkleizeVectorAndMixinLength
  (roots : list Root) (maxRootsAllowed : Z) : outcome Root :=
  r ← UnsafeMerkleizeVector roots (Z.of_nat (length roots));
  Ok (Mixin r maxRootsAllowed).

Definition SafeMerkelizeVectorAndMixinLength
  (roots : list Root) (maxRootsAllowed : Z) : outcome Root :=
  byteRoots ← SafeMerkleizeVector roots maxRootsAllowed;
  Ok (Mixin byteRoots (Z.of_nat (length roots))).

(** One [HashTreeRoot()] call of an element, as an outcome. *)
Definition hash_element {T} `{Hashable T} (el : T) : outcome Root :=
  match HashTreeRootOf el with
  | inl r => Ok r
  | inr e => Err e
  end.

(** The roots of the elements, in order; the first error ends the loop. *)
Fixpoint HashElements {T} `{Hashable T} (elements : list T)
  : outcome (list Root) :=
  match elements with
  | [] => Ok []
  | el :: rest =>
    r ← hash_element el;
    rs ← HashElements rest;
    Ok (r :: rs)
  end.

Definition HashBytes (elements : list (list Byte.byte)) : outcome (list Root) :=
  HashElements (H := SSZBytes_HashTreeRoot) elements.

Definition BuildMerkleRoot {T} `{Hashable T} (elements : list T) (limit : Z)
  : outcome Root :=
  roots ← HashElements elements;
  SafeMerkleizeVector roots limit.

Definition BuildMerkleRootAndMixinLength {T} `{Hashable T}
  (elements : list T) (limit : Z) : outcome Root :=
  roots ← HashElements elements;
  SafeMerkelizeVectorAndMixinLength roots limit.

Definition BuildMerkleRootAndMixinLengthBytes
  (elements : list (list Byte.byte)) (limit : Z) : outcome Root :=
  roots ← HashBytes elements;
  SafeMerkelizeVectorAndMixinLength roots limit.

(** *** The levels of the tree *)

Lemma length_zero_hashes_from (n : nat) (z : Root) :
  length (zero_hashes_from n z) = n.
Proof. revert z. induction n as [|n IH]; intros z; simpl; [done|]. by rewrite IH. Qed.

Lemma length_ZeroHashes : length ZeroHashes = 65%nat.
Proof. apply length_zero_hashes_from. Qed.

Lemma ZeroHashes_0 : ZeroHashes !! 0%nat = Some zero_root.
Proof. reflexivity. Qed.

Lemma ZeroHashes_succ (i : nat) (z : Root) :
  (S i < 65)%nat → ZeroHashes !! i = Some z →
  ZeroHashes !! S i = Some (Combine z z).
Proof.
  unfold ZeroHashes. generalize zero_root as r, 65%nat as n. revert z.
  induction i as [|i IH]; intros z r n Hlt Hi.
  - destruct n as [|[|n]]; [lia..|]. simpl in *. by inversion Hi.
  - destruct n as [|n]; [lia|]. simpl in *. apply IH; [lia|done].
Qed.

(** A level of [2k] or [2k+1] roots is hashed into [k] roots. *)
Lemma length_hash_pairs (l : list Root) :
  length (hash_pairs l) = (length l / 2)%nat.
Proof.
  assert (∀ n (l : list Root), (length l < n)%nat →
            length (hash_pairs l) = (length l / 2)%nat) as Hn.
  { clear l. induction n as [|n IH]; intros l Hl; [lia|].
    destruct l as [|a [|b rest]]; [done..|].
    simpl hash_pairs. simpl length in *. rewrite IH by lia.
    change (S (S (length rest))) with (1 * 2 + length rest)%nat.
    rewrite Nat.div_add_l by lia. lia. }
  apply (Hn (S (length l))). lia.
Qed.

Lemma HashTreeRoot_even (l : list Root) :
  (length l mod 2 = 0)%nat → HashTreeRoot l = Ok (hash_pairs l).
Proof.
  intros Hl. unfold HashTreeRoot.
  replace (Nat.even (length l)) with true; [done|].
  symmetry. apply Nat.even_spec. exists (length l / 2)%nat.
  pose proof (Nat.div_mod_eq (length l) 2). lia.
Qed.

(** From a level that is not empty and fits under [n] more levels, the loop
    reaches a single root: it pads with a zero hash that exists, it never
    hashes a level of odd length, and the final [roots[0]] is in range. *)
Lemma merkleize_levels_total (n i : nat) (roots : list Root) :
  roots ≠ [] → Z.of_nat (length roots) ≤ 2 ^ Z.of_nat n → (i + n ≤ 65)%nat →
  is_Ok (merkleize_levels n i roots).
Proof.
  revert i roots. induction n as [|n IH]; intros i roots Hne Hlen Hi.
  - destruct roots as [|r roots]; [done|]. by exists r.
  - assert (2 ^ Z.of_nat (S n) = 2 * 2 ^ Z.of_nat n) as Hpow.
    { rewrite Nat2Z.inj_succ, Z.pow_succ_r; lia. }
    pose proof (Nat.div_mod_eq (length roots) 2) as Hdm.
    pose proof (Nat.mod_upper_bound (length roots) 2) as Hm.
    assert (length roots ≠ 0)%nat as Hlen0 by (by destruct roots).
    cbn [merkleize_levels].
    destruct (Nat.eqb_spec (length roots mod 2) 0) as [He|Ho]; cbn [negb].
    + destruct (Nat.eqb_spec (length roots) 0) as [|_]; [done|].
      rewrite HashTreeRoot_even by done. cbn.
      apply IH; [|rewrite length_hash_pairs; lia|lia].
      intros Hnil. apply (f_equal length) in Hnil.
      rewrite length_hash_pairs in Hnil. cbn [length] in Hnil. lia.
    + destruct (index_lt ZeroHashes i) as (z & _ & ->);
        [rewrite length_ZeroHashes; lia|]. cbn.
      assert (length (roots ++ [z]) = S (length roots)) as Hl
        by (rewrite length_app; simpl; lia).
      assert (length (roots ++ [z]) mod 2 = 0)%nat as He.
      { rewrite Hl. replace (S (length roots)) with (0 + (length roots / 2 + 1) * 2)%nat by lia.
        by rewrite Nat.Div0.mod_add. }
      rewrite HashTreeRoot_even by done. cbn.
      pose proof (Nat.div_mod_eq (length (roots ++ [z])) 2) as Hdm'.
      apply IH; [|rewrite length_hash_pairs; lia|lia].
      intros Hnil. apply (f_equal length) in Hnil.
      rewrite length_hash_pairs in Hnil. cbn [length] in Hnil. lia.
Qed.

(** *** The depth that covers a limit *)

Lemma CoverDepth_small (v : Z) : v ≤ 1 → CoverDepth v = 0.
Proof. apply Z.log2_up_eqn0. Qed.

Lemma CoverDepth_pos (v : Z) : 2 ≤ v → 0 < CoverDepth v.
Proof. intros Hv. apply Z.log2_up_pos. lia. Qed.

Lemma CoverDepth_covers (v : Z) : v ≤ 2 ^ CoverDepth v.
Proof.
  destruct (decide (v ≤ 1)) as [Hv|Hv].
  - rewrite CoverDepth_small by done. simpl. lia.
  - unfold CoverDepth. pose proof (Z.log2_up_spec v). lia.
Qed.

Lemma CoverDepth_uint64 (v : Z) : v < 2 ^ 64 → CoverDepth v ≤ 64.
Proof.
  intros Hv. destruct (decide (v ≤ 1)) as [Hv1|Hv1].
  - rewrite CoverDepth_small by done. lia.
  - unfold CoverDepth. apply Z.log2_up_le_pow2; lia.
Qed.

(** *** SafeMerkleizeVector *)

Lemma SafeMerkleizeVector_within (roots : list Root) (limit : Z) :
  Z.of_nat (length roots) ≤ limit →
  SafeMerkleizeVector roots limit =
  merkleize_levels (Z.to_nat (CoverDepth limit)) 0 roots.
Proof.
  intros Hle. unfold SafeMerkleizeVector.
  by destruct (Z.ltb_spec limit (Z.of_nat (length roots))); [lia|].
Qed.

(** A list that is not empty and within the limit always has a root. *)
Lemma SafeMerkleizeVector_total_nonempty (roots : list Root) (limit : Z) :
  roots ≠ [] → Z.of_nat (length roots) ≤ limit → limit < 2 ^ 64 →
  is_Ok (SafeMerkleizeVector roots limit).
Proof.
  intros Hne Hle Hlim. rewrite SafeMerkleizeVector_within by done.
  pose proof (Z.log2_up_nonneg limit) as Hnn. fold (CoverDepth limit) in Hnn.
  apply merkleize_levels_total; [done| |].
  - rewrite Z2Nat.id by done. pose proof (CoverDepth_covers limit). lia.
  - pose proof (CoverDepth_uint64 limit Hlim). lia.
Qed.

(** The empty list: with a limit of 0 or 1 the loop does not run and
    [roots[0]] is out of range; with a larger limit the first iteration
    returns [ZeroHashes[0]], whatever the depth. *)
Lemma SafeMerkleizeVector_empty (limit : Z) :
  0 ≤ limit →
  SafeMerkleizeVector [] limit =
  if decide (limit ≤ 1) then Panic (IndexOutOfRange 0 0) else Ok zero_root.
Proof.
  intros Hlim. rewrite SafeMerkleizeVector_within by (simpl; lia).
  case_decide as Hl.
  - by rewrite CoverDepth_small.
  - pose proof (CoverDepth_pos limit ltac:(lia)) as Hpos.
    destruct (Z.to_nat (CoverDepth limit)) as [|n] eqn:Hn; [lia|].
    reflexivity.
Qed.

(** C10: on lists within the limit (a [uint64]), [SafeMerkleizeVector]
    returns a root exactly when the list is not empty or the limit is at least
    2; on the empty list with limit 0 or 1 the depth is 0, the loop body never
    runs and the final [roots[0]] indexes an empty slice: the call panics. *)
Theorem SafeMerkleizeVector_total_iff (roots : list Root) (limit : Z) :
  0 ≤ limit < 2 ^ 64 → Z.of_nat (length roots) ≤ limit →
  (is_Ok (SafeMerkleizeVector roots limit) ↔ ¬ (roots = [] ∧ limit ≤ 1)) ∧
  (roots = [] → limit ≤ 1 →
   CoverDepth limit = 0 ∧
   SafeMerkleizeVector roots limit = Panic (IndexOutOfRange 0 0)).
Proof.
  intros [Hlo Hhi] Hle. split.
  - destruct roots as [|r roots].
    + rewrite SafeMerkleizeVector_empty by done. case_decide as Hl.
      * split; [by intros [? ?]|]. intros Hn. destruct Hn. done.
      * split; [intros _ [_ ?]; lia|]. intros _. by eexists.
    + split; [intros _ [? _]; done|]. intros _.
      by apply SafeMerkleizeVector_total_nonempty.
  - intros -> Hl. split; [by apply CoverDepth_small|].
    rewrite SafeMerkleizeVector_empty by done. by rewrite decide_True.
Qed.

(** C1: what the code returns for the empty list.  For a limit of at least 2
    it is [ZeroHashes[0]], the zero root, and its mixin with length 0: the
    loop index of the first iteration, not the depth that covers the limit
    ([ZeroHashes[CoverDepth limit]], one or more hashes above the zero
    root).  For a limit of 0 or 1 it is a panic. *)
Theorem SafeMerkleizeVector_nil (limit : Z) :
  0 ≤ limit →
  (limit ≤ 1 →
   SafeMerkleizeVector [] limit = Panic (IndexOutOfRange 0 0) ∧
   SafeMerkelizeVectorAndMixinLength [] limit = Panic (IndexOutOfRange 0 0)) ∧
  (2 ≤ limit →
   SafeMerkleizeVector [] limit = index ZeroHashes 0 ∧
   index ZeroHashes 0 = Ok zero_root ∧
   SafeMerkelizeVectorAndMixinLength [] limit = Ok (Mixin zero_root 0) ∧
   0 < CoverDepth limit).
Proof.
  intros Hlim. unfold SafeMerkelizeVectorAndMixinLength.
  rewrite SafeMerkleizeVector_empty by done. split; intros Hl.
  - by rewrite decide_True.
  - rewrite decide_False by lia. repeat split. by apply CoverDepth_pos.
Qed.

(** Limit 2 has depth 1, and [ZeroHashes[1]] is the hash of two zero roots:
    under a hash function that does not fix the zero root, the root of the
    empty list is not the zero hash at the depth of the limit. *)
Lemma SafeMerkleizeVector_nil_2_not_at_depth :
  Combine zero_root zero_root ≠ zero_root →
  SafeMerkleizeVector [] 2 ≠ index ZeroHashes (Z.to_nat (CoverDepth 2)).
Proof.
  intros Hne. rewrite SafeMerkleizeVector_empty by lia.
  rewrite decide_False by lia.
  change (index ZeroHashes (Z.to_nat (CoverDepth 2)))
    with (Ok (Combine zero_root zero_root)).
  congruence.
Qed.

(** The loop itself has no error to return: every level it hashes has an
    even length. *)
Lemma merkleize_levels_not_Err (n i : nat) (roots : list Root) (e : string) :
  merkleize_levels n i roots ≠ Err e.
Proof.
  revert i roots. induction n as [|n IH]; intros i roots.
  - unfold merkleize_levels, index. by destruct (roots !! 0%nat).
  - cbn [merkleize_levels].
    destruct (Nat.eqb_spec (length roots mod 2) 0) as [He|Ho]; cbn [negb].
    + destruct (Nat.eqb_spec (length roots) 0) as [|_].
      * unfold index. by destruct (ZeroHashes !! i).
      * rewrite HashTreeRoot_even by done. apply IH.
    + unfold index at 1. destruct (ZeroHashes !! i) as [z|]; [|done]. cbn.
      rewrite HashTreeRoot_even; [apply IH|].
      rewrite length_app. cbn [length].
      pose proof (Nat.div_mod_eq (length roots) 2) as Hdm.
      pose proof (Nat.mod_upper_bound (length roots) 2) as Hm.
      replace (length roots + 1)%nat
        with (0 + (length roots / 2 + 1) * 2)%nat by lia.
      by rewrite Nat.Div0.mod_add.
Qed.

(** C2: the unsafe variant merkleizes under the limit [len(roots)] and mixes
    in [limit]; the safe variant merkleizes under [limit] and mixes in
    [len(roots)].  The two are not the same function: on two roots with
    limit 1 the safe one returns an error and the unsafe one a root. *)
Theorem UnsafeMerkleizeVectorAndMixinLength_swaps :
  (∀ roots limit,
     UnsafeMerkleizeVectorAndMixinLength roots limit =
     (λ r, Mixin r limit) <$> SafeMerkleizeVector roots (Z.of_nat (length roots))) ∧
  (∀ roots limit,
     SafeMerkelizeVectorAndMixinLength roots limit =
     (λ r, Mixin r (Z.of_nat (length roots))) <$> SafeMerkleizeVector roots limit) ∧
  (∃ roots limit,
     UnsafeMerkleizeVectorAndMixinLength roots limit ≠
     SafeMerkelizeVectorAndMixinLength roots limit).
Proof.
  split; [|split].
  - intros roots limit.
    unfold UnsafeMerkleizeVectorAndMixinLength, UnsafeMerkleizeVector.
    rewrite SafeMerkleizeVector_within by lia.
    destruct (merkleize_levels _ 0 roots) as [r|e|p] eqn:Hm; [done| |done].
    by apply merkleize_levels_not_Err in Hm.
  - intros roots limit. unfold SafeMerkelizeVectorAndMixinLength.
    by destruct (SafeMerkleizeVector roots limit).
  - exists [zero_root; zero_root], 1. by vm_compute.
Qed.

(** *** Hashing the elements *)

Lemma HashElements_length {T} `{Hashable T} (elements : list T) (roots : list Root) :
  HashElements elements = Ok roots → length roots = length elements.
Proof.
  revert roots. induction elements as [|el rest IH]; intros roots Hok.
  - by inversion Hok.
  - cbn [HashElements] in Hok.
    destruct (hash_element el) as [r| |]; [|done..].
    destruct (HashElements rest) as [rs| |]; [|done..].
    cbn in Hok. inversion Hok. simpl. f_equal. by apply IH.
Qed.

Lemma HashElements_no_panic {T} `{Hashable T} (elements : list T) (p : panic) :
  HashElements elements ≠ Panic p.
Proof.
  induction elements as [|el rest IH]; [done|].
  cbn [HashElements]. unfold hash_element.
  destruct (HashTreeRootOf el) as [r|e]; [|done]. cbn.
  by destruct (HashElements rest).
Qed.

(** C3: more roots than the limit is an error, of [SafeMerkleizeVector] and of
    its callers [SafeMerkelizeVectorAndMixinLength], [BuildMerkleRoot] and
    [BuildMerkleRootAndMixinLength] (which hash one root per element). *)
Theorem exceeding_limit_is_error {T} `{Hashable T}
    (elements : list T) (roots : list Root) (limit : Z) :
  (limit < Z.of_nat (length roots) →
   is_Err (SafeMerkleizeVector roots limit) ∧
   is_Err (SafeMerkelizeVectorAndMixinLength roots limit)) ∧
  (limit < Z.of_nat (length elements) →
   is_Err (BuildMerkleRoot elements limit) ∧
   is_Err (BuildMerkleRootAndMixinLength elements limit)).
Proof.
  assert (∀ rs : list Root, limit < Z.of_nat (length rs) →
            is_Err (SafeMerkleizeVector rs limit) ∧
            is_Err (SafeMerkelizeVectorAndMixinLength rs limit)) as Hroots.
  { intros rs Hlt.
    unfold SafeMerkelizeVectorAndMixinLength, SafeMerkleizeVector.
    destruct (Z.ltb_spec limit (Z.of_nat (length rs))); [|lia].
    split; by eexists. }
  split; [apply Hroots|]. intros Hlt.
  unfold BuildMerkleRoot, BuildMerkleRootAndMixinLength.
  destruct (HashElements elements) as [rs|e|p] eqn:Hh.
  - apply HashElements_length in Hh. cbn. apply Hroots. lia.
  - split; by exists e.
  - by apply HashElements_no_panic in Hh.
Qed.

(** *** The tree the loop computes *)

(** The zero hash of level [i]: the root of a complete tree of [2^i] zero
    roots. *)
Definition zero_hash (i : nat) : Root :=
  Nat.iter i (λ z, Combine z z) zero_root.

(** The root of a list as the SSZ rules give it: the leaves padded with zero
    roots to [2^depth] leaves, then hashed two by two, [depth] times. *)
Definition pad_and_hash (depth : nat) (leaves : list Root) : list Root :=
  Nat.iter depth hash_pairs
    (leaves ++ replicate (2 ^ depth - length leaves) zero_root).

Lemma zero_hashes_from_lookup (n i : nat) (z : Root) :
  (i < n)%nat →
  zero_hashes_from n z !! i = Some (Nat.iter i (λ z, Combine z z) z).
Proof.
  revert i z. induction n as [|n IH]; intros i z Hi; [lia|].
  destruct i as [|i]; [done|].
  change (zero_hashes_from (S n) z !! S i)
    with (zero_hashes_from n (Combine z z) !! i).
  rewrite IH by lia. by rewrite Nat.iter_succ_r.
Qed.

Lemma ZeroHashes_lookup (i : nat) :
  (i < 65)%nat → index ZeroHashes i = Ok (zero_hash i).
Proof.
  intros Hi. unfold index, ZeroHashes.
  by rewrite zero_hashes_from_lookup.
Qed.

Lemma hash_pairs_app_even (l1 l2 : list Root) :
  (length l1 mod 2 = 0)%nat →
  hash_pairs (l1 ++ l2) = hash_pairs l1 ++ hash_pairs l2.
Proof.
  assert (∀ n (l : list Root), (length l < n)%nat → (length l mod 2 = 0)%nat →
            hash_pairs (l ++ l2) = hash_pairs l ++ hash_pairs l2) as Hn.
  { induction n as [|n IH]; intros l Hl He; [lia|].
    destruct l as [|a [|b rest]]; [done|done|].
    cbn [app hash_pairs]. f_equal. apply IH; [simpl in Hl; lia|].
    cbn [length] in He.
    replace (S (S (length rest))) with (length rest + 1 * 2)%nat in He by lia.
    by rewrite Nat.Div0.mod_add in He. }
  intros He. by apply (Hn (S (length l1))); [lia|].
Qed.

Lemma hash_pairs_replicate (m : nat) (z : Root) :
  hash_pairs (replicate (2 * m) z) = replicate m (Combine z z).
Proof.
  induction m as [|m IH]; [done|].
  replace (2 * S m)%nat with (S (S (2 * m))) by lia.
  cbn [replicate hash_pairs]. by rewrite IH.
Qed.

(** The level above a level: the level, with the zero hash [z] appended when
    its length is odd, hashed two by two. *)
Definition next_level (z : Root) (l : list Root) : list Root :=
  hash_pairs (if (length l mod 2 =? 0)%nat then l else l ++ [z]).

Lemma length_next_level (z : Root) (l : list Root) :
  length (next_level z l) = ((length l + 1) / 2)%nat.
Proof.
  unfold next_level. rewrite length_hash_pairs.
  pose proof (Nat.div_mod_eq (length l) 2) as Hdm.
  pose proof (Nat.mod_upper_bound (length l) 2) as Hm.
  destruct (Nat.eqb_spec (length l mod 2) 0) as [He|Ho].
  - replace (length l + 1)%nat with (1 + (length l / 2) * 2)%nat by lia.
    rewrite Nat.div_add by lia. cbn. lia.
  - rewrite length_app. cbn [length].
    replace (length l + 1)%nat with (0 + (length l / 2 + 1) * 2)%nat by lia.
    by rewrite Nat.div_add by lia.
Qed.

Lemma next_level_even (z : Root) (l : list Root) :
  (length (if (length l mod 2 =? 0)%nat then l else l ++ [z]) mod 2 = 0)%nat.
Proof.
  pose proof (Nat.div_mod_eq (length l) 2) as Hdm.
  pose proof (Nat.mod_upper_bound (length l) 2) as Hm.
  destruct (Nat.eqb_spec (length l mod 2) 0) as [He|Ho]; [done|].
  rewrite length_app. cbn [length].
  replace (length l + 1)%nat with (0 + (length l / 2 + 1) * 2)%nat by lia.
  by rewrite Nat.Div0.mod_add.
Qed.

(** One iteration of the loop on a level that is not empty. *)
Lemma merkleize_levels_step (n i : nat) (roots : list Root) :
  roots ≠ [] → (i < 65)%nat →
  merkleize_levels (S n) i roots =
  merkleize_levels n (S i) (next_level (zero_hash i) roots).
Proof.
  intros Hne Hi. cbn [merkleize_levels]. unfold next_level.
  pose proof (next_level_even (zero_hash i) roots) as Heven.
  destruct (Nat.eqb_spec (length roots mod 2) 0) as [He|Ho]; cbn [negb].
  - destruct (Nat.eqb_spec (length roots) 0) as [Hz|_].
    + by destruct roots.
    + by rewrite HashTreeRoot_even.
  - rewrite ZeroHashes_lookup by done. cbn [mbind outcome_bind].
    by rewrite HashTreeRoot_even.
Qed.

(** One level of the padded tree: hashing a level padded with the zero hash
    [z] to [2^(n+1)] roots is the next level padded with [Combine z z] to
    [2^n] roots. *)
Lemma hash_pairs_padded (n : nat) (z : Root) (l : list Root) :
  (length l ≤ 2 ^ S n)%nat →
  hash_pairs (l ++ replicate (2 ^ S n - length l) z) =
  next_level z l ++ replicate (2 ^ n - length (next_level z l)) (Combine z z).
Proof.
  intros Hlen. rewrite length_next_level. unfold next_level.
  pose proof (next_level_even z l) as Heven.
  pose proof (Nat.div_mod_eq (length l) 2) as Hdm.
  pose proof (Nat.mod_upper_bound (length l) 2) as Hm.
  pose proof (Nat.div_mod_eq (length l + 1) 2) as Hdm1.
  pose proof (Nat.mod_upper_bound (length l + 1) 2) as Hm1.
  assert (2 ^ S n = 2 * 2 ^ n)%nat as Hpow by (rewrite Nat.pow_succ_r'; lia).
  destruct (Nat.eqb_spec (length l mod 2) 0) as [He|Ho].
  - rewrite hash_pairs_app_even by done. f_equal.
    replace (2 ^ S n - length l)%nat
      with (2 * (2 ^ n - (length l + 1) / 2))%nat by lia.
    apply hash_pairs_replicate.
  - replace (2 ^ S n - length l)%nat
      with (S (2 * (2 ^ n - (length l + 1) / 2)))%nat by lia.
    cbn [replicate]. rewrite (cons_middle z l), app_assoc.
    rewrite hash_pairs_app_even by done. f_equal.
    apply hash_pairs_replicate.
Qed.

Lemma next_level_fits (n : nat) (z : Root) (l : list Root) :
  l ≠ [] → (length l ≤ 2 ^ S n)%nat →
  next_level z l ≠ [] ∧ (length (next_level z l) ≤ 2 ^ n)%nat.
Proof.
  intros Hne Hlen.
  assert (length l ≠ 0)%nat as Hlen0 by (by destruct l).
  assert (2 ^ S n = 2 * 2 ^ n)%nat as Hpow by (rewrite Nat.pow_succ_r'; lia).
  pose proof (Nat.div_mod_eq (length l + 1) 2) as Hdm1.
  pose proof (Nat.mod_upper_bound (length l + 1) 2) as Hm1.
  pose proof (length_next_level z l) as Hl.
  split; [|lia]. intros Hnil. rewrite Hnil in Hl. cbn [length] in Hl. lia.
Qed.

(** The loop from level [i] on a level that is not empty returns the single
    root that is left of the level, padded with the zero hash of level [i]
    and hashed [n] times. *)
Lemma merkleize_levels_padded (n i : nat) (roots : list Root) :
  roots ≠ [] → (length roots ≤ 2 ^ n)%nat → (i + n ≤ 65)%nat →
  ∃ r, merkleize_levels n i roots = Ok r ∧
       Nat.iter n hash_pairs
         (roots ++ replicate (2 ^ n - length roots) (zero_hash i)) = [r].
Proof.
  revert i roots. induction n as [|n IH]; intros i roots Hne Hlen Hi.
  - destruct roots as [|r [|? ?]]; [done| |cbn in Hlen; lia].
    exists r. by split.
  - destruct (next_level_fits n (zero_hash i) roots Hne Hlen) as [Hne' Hlen'].
    rewrite merkleize_levels_step by (done || lia).
    rewrite Nat.iter_succ_r, hash_pairs_padded by done.
    apply (IH (S i)); [done..|lia].
Qed.

(** One level more: the root under one more level is the hash of the root
    and the zero hash of the level the root was at. *)
Lemma merkleize_levels_succ (n i : nat) (roots : list Root) (r : Root) :
  roots ≠ [] → (length roots ≤ 2 ^ n)%nat → (i + S n ≤ 65)%nat →
  merkleize_levels n i roots = Ok r →
  merkleize_levels (S n) i roots = Ok (Combine r (zero_hash (i + n))).
Proof.
  revert i roots. induction n as [|n IH]; intros i roots Hne Hlen Hi Hr.
  - destruct roots as [|r0 [|? ?]]; [done| |cbn in Hlen; lia].
    injection Hr as ->.
    rewrite merkleize_levels_step by (done || lia).
    by rewrite Nat.add_0_r.
  - destruct (next_level_fits n (zero_hash i) roots Hne Hlen) as [Hne' Hlen'].
    rewrite merkleize_levels_step in Hr by (done || lia).
    rewrite merkleize_levels_step by (done || lia).
    replace (i + S n)%nat with (S i + n)%nat by lia.
    apply IH; [done..|lia|done].
Qed.

Lemma CoverDepth_nat (roots : list Root) (limit : Z) :
  Z.of_nat (length roots) ≤ limit →
  (length roots ≤ 2 ^ Z.to_nat (CoverDepth limit))%nat.
Proof.
  intros Hle. pose proof (CoverDepth_covers limit) as Hc.
  pose proof (Z.log2_up_nonneg limit) as Hnn. fold (CoverDepth limit) in Hnn.
  apply Nat2Z.inj_le. rewrite Nat2Z.inj_pow, Z2Nat.id by done.
  change (Z.of_nat 2) with 2. lia.
Qed.

(** The root of a list that is not empty and within the limit, and the
    padded tree it is the root of. *)
Lemma SafeMerkleizeVector_padded (roots : list Root) (limit : Z) :
  roots ≠ [] → Z.of_nat (length roots) ≤ limit → limit < 2 ^ 64 →
  ∃ r, SafeMerkleizeVector roots limit = Ok r ∧
       pad_and_hash (Z.to_nat (CoverDepth limit)) roots = [r].
Proof.
  intros Hne Hle Hlim.
  pose proof (CoverDepth_uint64 limit Hlim) as H64.
  destruct (merkleize_levels_padded (Z.to_nat (CoverDepth limit)) 0 roots)
    as (r & Hr & Htree); [done|by apply CoverDepth_nat|lia|].
  exists r. by rewrite SafeMerkleizeVector_within.
Qed.

(** X1: for a list that is not empty and within the limit (a [uint64]),
    [SafeMerkleizeVector] returns the root of the list padded with zero roots
    to [2^CoverDepth(limit)] leaves and hashed two by two, and
    [SafeMerkelizeVectorAndMixinLength] that root mixed with the length of
    the list: padding each level with the zero hash of the level is padding
    the leaves. *)
Theorem SafeMerkleizeVector_pad_and_hash (roots : list Root) (limit : Z) :
  roots ≠ [] → Z.of_nat (length roots) ≤ limit → limit < 2 ^ 64 →
  ∃ r, SafeMerkleizeVector roots limit = Ok r ∧
       pad_and_hash (Z.to_nat (CoverDepth limit)) roots = [r] ∧
       SafeMerkelizeVectorAndMixinLength roots limit =
         Ok (Mixin r (Z.of_nat (length roots))).
Proof.
  intros Hne Hle Hlim.
  destruct (SafeMerkleizeVector_padded roots limit Hne Hle Hlim) as (r & Hr & Htree).
  exists r. unfold SafeMerkelizeVectorAndMixinLength. by rewrite Hr.
Qed.

(** X2: doubling the limit adds one level: the root under the limit [2 *
    limit] is the hash of the root under [limit] and the zero hash of the
    depth of [limit]. *)
Theorem SafeMerkleizeVector_double_limit (roots : list Root) (limit : Z) (r : Root) :
  roots ≠ [] → Z.of_nat (length roots) ≤ limit → 2 * limit < 2 ^ 64 →
  SafeMerkleizeVector roots limit = Ok r →
  SafeMerkleizeVector roots (2 * limit) =
    Ok (Combine r (zero_hash (Z.to_nat (CoverDepth limit)))).
Proof.
  intros Hne Hle Hlim Hr.
  assert (0 < limit) as Hpos by (destruct roots; [done|cbn in Hle; lia]).
  pose proof (CoverDepth_uint64 (2 * limit) Hlim) as H64.
  pose proof (Z.log2_up_nonneg limit) as Hnn. fold (CoverDepth limit) in Hnn.
  assert (CoverDepth (2 * limit) = Z.succ (CoverDepth limit)) as Hd
    by (by apply Z.log2_up_double).
  rewrite SafeMerkleizeVector_within in Hr by done.
  rewrite SafeMerkleizeVector_within by lia.
  rewrite Hd, Z2Nat.inj_succ by done.
  apply (merkleize_levels_succ _ 0); [done|by apply CoverDepth_nat|lia|done].
Qed.

(** The panics of the loop are all index panics. *)
Lemma index_panic {A} (l : list A) (i : nat) (p : panic) :
  index l i = Panic p → ∃ a b, p = IndexOutOfRange a b.
Proof.
  unfold index. destruct (l !! i); [done|].
  intros Hp. exists i, (length l). congruence.
Qed.

Lemma merkleize_levels_panic (n i : nat) (roots : list Root) (p : panic) :
  merkleize_levels n i roots = Panic p → ∃ a b, p = IndexOutOfRange a b.
Proof.
  revert i roots. induction n as [|n IH]; intros i roots.
  - apply index_panic.
  - cbn [merkleize_levels].
    pose proof (next_level_even) as Heven.
    destruct (Nat.eqb_spec (length roots mod 2) 0) as [He|Ho]; cbn [negb].
    + destruct (Nat.eqb_spec (length roots) 0) as [|_]; [apply index_panic|].
      rewrite HashTreeRoot_even by done. apply IH.
    + destruct (index ZeroHashes i) as [z| |p'] eqn:Hz; cbn [mbind outcome_bind].
      * specialize (Heven z roots).
        destruct (Nat.eqb_spec (length roots mod 2) 0); [done|].
        rewrite HashTreeRoot_even by done. apply IH.
      * done.
      * intros Hp. apply (index_panic ZeroHashes i). congruence.
Qed.

(** X3: [UnsafeMerkleizeVector] returns no error: a list longer than the
    limit, and no other, makes it panic with the message of the limit error;
    within the limit it is [SafeMerkleizeVector]. *)
Theorem UnsafeMerkleizeVector_panics_iff (roots : list Root) (limit : Z) :
  (UnsafeMerkleizeVector roots limit =
     Panic (PanicError
       "merkleizing list exceeds the maximum allowed number of elements") ↔
   limit < Z.of_nat (length roots)) ∧
  (Z.of_nat (length roots) ≤ limit →
   UnsafeMerkleizeVector roots limit = SafeMerkleizeVector roots limit) ∧
  ¬ is_Err (UnsafeMerkleizeVector roots limit).
Proof.
  unfold UnsafeMerkleizeVector, SafeMerkleizeVector.
  destruct (Z.ltb_spec limit (Z.of_nat (length roots))) as [Hlt|Hle].
  - split; [done|]. split; [lia|]. by intros [e He].
  - destruct (merkleize_levels _ 0 roots) as [r|e|p] eqn:Hm.
    + split; [split; [done|lia]|]. split; [done|]. by intros [e He].
    + by apply merkleize_levels_not_Err in Hm.
    + apply merkleize_levels_panic in Hm as (a & b & ->).
      split; [split; [done|lia]|]. split; [done|]. by intros [e He].
Qed.

(** X4: [UnsafeMerkleizeVectorAndMixinLength] never enforces its limit: the
    list is merkleized under its own length, so every list that is not empty
    gets a root, with the limit mixed in, also when the list is longer than
    the limit; the empty list makes it panic whatever the limit is. *)
Theorem UnsafeMerkleizeVectorAndMixinLength_ignores_limit (roots : list Root) (limit : Z) :
  Z.of_nat (length roots) < 2 ^ 64 →
  (roots = [] →
   UnsafeMerkleizeVectorAndMixinLength roots limit = Panic (IndexOutOfRange 0 0)) ∧
  (roots ≠ [] →
   ∃ r, pad_and_hash (Z.to_nat (CoverDepth (Z.of_nat (length roots)))) roots = [r] ∧
        UnsafeMerkleizeVectorAndMixinLength roots limit = Ok (Mixin r limit)).
Proof.
  intros Hlen. unfold UnsafeMerkleizeVectorAndMixinLength, UnsafeMerkleizeVector.
  split.
  - intros ->. by rewrite SafeMerkleizeVector_empty.
  - intros Hne.
    destruct (SafeMerkleizeVector_padded roots (Z.of_nat (length roots)))
      as (r & Hr & Htree); [done|lia|done|].
    exists r. split; [done|]. by rewrite Hr.
Qed.

(** *** The roots of the elements *)

Lemma HashElements_cons {T} `{Hashable T} (el : T) (rest : list T) :
  HashElements (el :: rest) =
  match HashTreeRootOf el with
  | inl r =>
    match HashElements rest with
    | Ok rs => Ok (r :: rs)
    | Err e => Err e
    | Panic p => Panic p
    end
  | inr e => Err e
  end.
Proof.
  cbn [HashElements]. unfold hash_element.
  by destruct (HashTreeRootOf el).
Qed.

(** X5: [HashElements] succeeds exactly when every element has a root, and
    then returns the roots in the order of the elements; when an element
    fails after elements that have roots, its error is the result, and also
    the result of [BuildMerkleRoot], whatever the limit. *)
Theorem HashElements_all_or_first_error {T} `{Hashable T}
    (elements : list T) (limit : Z) :
  (∀ roots, HashElements elements = Ok roots ↔
            Forall2 (λ el r, HashTreeRootOf el = inl r) elements roots) ∧
  (∀ before el after e,
     elements = before ++ el :: after →
     Forall (λ el', ∃ r, HashTreeRootOf el' = inl r) before →
     HashTreeRootOf el = inr e →
     HashElements elements = Err e ∧ BuildMerkleRoot elements limit = Err e).
Proof.
  split.
  - induction elements as [|el rest IH]; intros roots.
    + split; [by intros [= <-]; constructor|]. by inversion 1.
    + rewrite HashElements_cons. split.
      * destruct (HashTreeRootOf el) as [r|e] eqn:Hel; [|done].
        destruct (HashElements rest) as [rs| |] eqn:Hrest; [|done..].
        intros [= <-]. constructor; [done|]. by apply IH.
      * inversion 1 as [|? r ? rs Hel Hrest]; subst.
        rewrite Hel. apply IH in Hrest. by rewrite Hrest.
  - intros before el after e -> Hbefore Hel.
    assert (HashElements (before ++ el :: after) = Err e) as Herr.
    { induction Hbefore as [|el' before [r Hr] _ IH]; cbn [app];
        rewrite HashElements_cons.
      - by rewrite Hel.
      - by rewrite Hr, IH. }
    split; [done|]. unfold BuildMerkleRoot. by rewrite Herr.
Qed.

(** X6: hashing byte strings cannot fail: [HashBytes] returns one root per
    string, the [ByteListHTR] of the string and its length, and
    [BuildMerkleRootAndMixinLengthBytes] is
    [SafeMerkelizeVectorAndMixinLength] on those roots. *)
Theorem HashBytes_total (elements : list (list Byte.byte)) (limit : Z) :
  HashBytes elements =
    Ok ((λ s, ByteListHTR s (Z.of_nat (length s))) <$> elements) ∧
  BuildMerkleRootAndMixinLengthBytes elements limit =
    SafeMerkelizeVectorAndMixinLength
      ((λ s, ByteListHTR s (Z.of_nat (length s))) <$> elements) limit.
Proof.
  assert (HashBytes elements =
          Ok ((λ s, ByteListHTR s (Z.of_nat (length s))) <$> elements)) as Hb.
  { unfold HashBytes. induction elements as [|s rest IH]; [done|].
    rewrite HashElements_cons, IH. reflexivity. }
  split; [done|]. unfold BuildMerkleRootAndMixinLengthBytes. by rewrite Hb.
Qed.

End merkleize.

(** *** Test vectors *)

(** A stand-in for SHA-256, to run the definitions on concrete lists: the
    bytes of the two roots added pairwise, plus one. *)
Definition sample_combine (a b : Root) : Root :=
  zip_with (λ x y,
    default Byte.x00 (Byte.of_N ((Byte.to_N x + Byte.to_N y + 1) mod 256)%N)) a b.

Definition sample_hash : HashFn := {|
  Combine := sample_combine;
  Mixin r n := sample_combine r (replicate 32 (default Byte.x00 (Byte.of_N (Z.to_N (n mod 256)))));
  ByteListHTR s n := take 32 (s ++ zero_root);
|}.

#[local] Existing Instance sample_hash.

Example sample_one_root :
  SafeMerkleizeVector [zero_root] 1 = Ok zero_root.
Proof. reflexivity. Qed.

Example sample_three_roots (a b c : Root) :
  SafeMerkleizeVector [a; b; c] 4 =
  Ok (sample_combine (sample_combine a b) (sample_combine c zero_root)).
Proof. reflexivity. Qed.

Example sample_three_roots_limit_3 (a b c : Root) :
  SafeMerkleizeVector [a; b; c] 2 =
  Err "merkleizing list exceeds the maximum allowed number of elements".
Proof. reflexivity. Qed.

Lemma SafeMerkleizeVector_total_iff_witness :
  (is_Ok (SafeMerkleizeVector [] 1) ↔
   ¬ (@nil Root = [] ∧ 1 ≤ 1)) ∧
  (@nil Root = [] → 1 ≤ 1 →
   CoverDepth 1 = 0 ∧
   SafeMerkleizeVector [] 1 = Panic (IndexOutOfRange 0 0)).
Proof.
  apply (SafeMerkleizeVector_total_iff (hf := sample_hash) [] 1).
  - lia.
  - simpl. lia.
Defined.

Lemma SafeMerkleizeVector_nil_witness :
  (SafeMerkleizeVector [] 0 = Panic (IndexOutOfRange 0 0) ∧
   SafeMerkelizeVectorAndMixinLength [] 0 = Panic (IndexOutOfRange 0 0)) ∧
  (SafeMerkleizeVector [] 2 = index ZeroHashes 0 ∧
   index ZeroHashes 0 = Ok zero_root ∧
   SafeMerkelizeVectorAndMixinLength [] 2 = Ok (Mixin zero_root 0) ∧
   0 < CoverDepth 2).
Proof.
  split.
  - apply (SafeMerkleizeVector_nil (hf := sample_hash) 0); lia.
  - apply (SafeMerkleizeVector_nil (hf := sample_hash) 2); lia.
Defined.

(** With the stand-in hash, the zero hash at the depth of limit 2 is 32 bytes
    of value 1, and not what the empty list is merkleized to. *)
Example sample_empty_limit_2 :
  index ZeroHashes (Z.to_nat (CoverDepth 2)) = Ok (replicate 32 Byte.x01) ∧
  SafeMerkleizeVector [] 2 = Ok (replicate 32 Byte.x00).
Proof. split; reflexivity. Qed.

Lemma exceeding_limit_is_error_witness :
  (1 < Z.of_nat (length [zero_root; zero_root]) →
   is_Err (SafeMerkleizeVector [zero_root; zero_root] 1) ∧
   is_Err (SafeMerkelizeVectorAndMixinLength
             [zero_root; zero_root] 1)) ∧
  (1 < Z.of_nat (length [[Byte.x01]; [Byte.x02]]) →
   is_Err (BuildMerkleRoot (H := SSZBytes_HashTreeRoot)
             [[Byte.x01]; [Byte.x02]] 1) ∧
   is_Err (BuildMerkleRootAndMixinLength
             (H := SSZBytes_HashTreeRoot) [[Byte.x01]; [Byte.x02]] 1)).
Proof.
  apply (exceeding_limit_is_error (hf := sample_hash) (H := SSZBytes_HashTreeRoot)
           [[Byte.x01]; [Byte.x02]] [zero_root; zero_root] 1).
Defined.

Lemma SafeMerkleizeVector_pad_and_hash_witness :
  ∃ r, SafeMerkleizeVector [zero_root; replicate 32 Byte.x07; zero_root] 4 = Ok r ∧
       pad_and_hash (Z.to_nat (CoverDepth 4))
         [zero_root; replicate 32 Byte.x07; zero_root] = [r] ∧
       SafeMerkelizeVectorAndMixinLength
         [zero_root; replicate 32 Byte.x07; zero_root] 4 =
         Ok (Mixin r (Z.of_nat (length [zero_root; replicate 32 Byte.x07; zero_root]))).
Proof.
  apply (SafeMerkleizeVector_pad_and_hash (hf := sample_hash)
           [zero_root; replicate 32 Byte.x07; zero_root] 4).
  - done.
  - simpl. lia.
  - lia.
Defined.

Lemma SafeMerkleizeVector_double_limit_witness :
  SafeMerkleizeVector [replicate 32 Byte.x07; zero_root] (2 * 3) =
    Ok (Combine (replicate 32 Byte.x0a) (zero_hash (Z.to_nat (CoverDepth 3)))).
Proof.
  apply (SafeMerkleizeVector_double_limit (hf := sample_hash)
           [replicate 32 Byte.x07; zero_root] 3 (replicate 32 Byte.x0a)).
  - done.
  - simpl. lia.
  - lia.
  - reflexivity.
Defined.

Lemma UnsafeMerkleizeVectorAndMixinLength_ignores_limit_witness :
  ([zero_root; zero_root; zero_root] = [] →
   UnsafeMerkleizeVectorAndMixinLength [zero_root; zero_root; zero_root] 1 =
     Panic (IndexOutOfRange 0 0)) ∧
  ([zero_root; zero_root; zero_root] ≠ [] →
   ∃ r, pad_and_hash
          (Z.to_nat (CoverDepth (Z.of_nat (length [zero_root; zero_root; zero_root]))))
          [zero_root; zero_root; zero_root] = [r] ∧
        UnsafeMerkleizeVectorAndMixinLength [zero_root; zero_root; zero_root] 1 =
          Ok (Mixin r 1)).
Proof.
  apply (UnsafeMerkleizeVectorAndMixinLength_ignores_limit (hf := sample_hash)
           [zero_root; zero_root; zero_root] 1).
  simpl. lia.
Defined.

Lemma HashElements_all_or_first_error_witness :
  HashElements (H := λ n : nat, if (n =? 0)%nat then inr "zero" else inl zero_root)
    [1%nat; 0%nat; 2%nat] = Err "zero" ∧
  BuildMerkleRoot (H := λ n : nat, if (n =? 0)%nat then inr "zero" else inl zero_root)
    [1%nat; 0%nat; 2%nat] 2 = Err "zero".
Proof.
  apply (proj2 (HashElements_all_or_first_error (hf := sample_hash)
                  (H := λ n : nat, if (n =? 0)%nat then inr "zero" else inl zero_root)
                  [1%nat; 0%nat; 2%nat] 2) [1%nat] 0%nat [2%nat] "zero").
  - reflexivity.
  - constructor; [by exists zero_root|constructor].
  - reflexivity.
Defined.

End Merkle.

(** ** mod/async/pkg/server/event.go *)

Module Server.

Section event_server.

(** [types.EventID], the key of the registry. *)
Context {EventID : Type} `{Countable EventID}.
(** [types.BaseEvent] with its method [ID()]. *)
Context {BaseEvent : Type} (ID : BaseEvent → EventID).
(** A [types.Publisher] is a reference to a publisher object; what is behind
    the references (queues, subscribers) is the state [World].  [ChanT]
    stands for the [any] that [Subscribe] takes, [PublisherError] for the
    errors publishers return. *)
Context {Publisher World ChanT PublisherError : Type}.
(** The methods of the interface [types.Publisher]; [Start] runs
    concurrently and is not modelled. *)
Context (publisher_EventID : Publisher → EventID).
Context (publisher_Publish :
  Publisher → BaseEvent → World → World * option PublisherError).
Context (publisher_Subscribe :
  Publisher → ChanT → World → World * option PublisherError).

(** Modelled from the spec: the code of [errPublisherNotFound] and
    [errPublisherAlreadyExists] of package [server] is missing; they are the
    spec's [PublisherNotFound] and [DuplicateEventID], each carrying the event
    id.  They are private to the package, so an error a publisher returns is
    a different one. *)
Inductive error : Type :=
| errPublisherNotFound (eventID : EventID)
| errPublisherAlreadyExists (eventID : EventID)
| errFromPublisher (e : PublisherError).

(** The [EventServer] struct; its logger is written by [SetLogger] and read
    nowhere in the file. *)
Record EventServer : Type := mkEventServer {
  publishers : gmap EventID Publisher;
}.

Definition NewEventServer : EventServer := {| publishers := ∅ |}.

(** The error of a delegated call, as the server returns it. *)
Definition delegated (r : World * option PublisherError) : World * option error :=
  (r.1, errFromPublisher <$> r.2).

Definition Publish (es : EventServer) (event : BaseEvent) (w : World)
  : World * option error :=
  match publishers es !! ID event with
  | None => (w, Some (errPublisherNotFound (ID event)))
  | Some publisher => delegated (publisher_Publish publisher event w)
  end.

Definition Subscribe (es : EventServer) (eventID : EventID) (ch : ChanT) (w : World)
  : World * option error :=
  match publishers es !! eventID with
  | None => (w, Some (errPublisherNotFound eventID))
  | Some publisher => delegated (publisher_Subscribe publisher ch w)
  end.

(** The receiver is a pointer: the server the call leaves behind is returned
    next to the error, also when the error is not nil. *)
Fixpoint RegisterPublishers (es : EventServer) (pubs : list Publisher)
  : EventServer * option error :=
  match pubs with
  | [] => (es, None)
  | publisher :: rest =>
    match publishers es !! publisher_EventID publisher with
    | Some _ => (es, Some (errPublisherAlreadyExists (publisher_EventID publisher)))
    | None =>
      RegisterPublishers
        {| publishers := <[publisher_EventID publisher := publisher]> (publishers es) |}
        rest
    end
  end.

(** The publisher at position [k] of the batch has an event id that is bound
    in the registry or belongs to an earlier publisher of the batch. *)
Definition duplicate_at (es : EventServer) (pubs : list Publisher) (k : nat) : Prop :=
  ∃ p, pubs !! k = Some p ∧
    (is_Some (publishers es !! publisher_EventID p) ∨
     ∃ j q, (j < k)%nat ∧ pubs !! j = Some q ∧
            publisher_EventID q = publisher_EventID p).

Definition has_duplicate (es : EventServer) (pubs : list Publisher) : Prop :=
  ∃ k, duplicate_at es pubs k.

(** *** Publish and Subscribe *)

(** C8: [Publish] returns the publisher-not-found error exactly when no
    publisher is registered under the id of the event, and [Subscribe]
    exactly when none is registered under the given id; then nothing behind
    the publishers changes.  With a publisher registered, the call is the
    publisher's own [Publish] or [Subscribe]: the state it leaves is the state
    the publisher leaves, the error is nil when the publisher returns nil and
    is the publisher's error when it returns one. *)
Theorem Publish_Subscribe_not_found_iff
    (es : EventServer) (event : BaseEvent) (eventID : EventID) (ch : ChanT) (w : World) :
  ((∃ id, (Publish es event w).2 = Some (errPublisherNotFound id)) ↔
   publishers es !! ID event = None) ∧
  (publishers es !! ID event = None →
   Publish es event w = (w, Some (errPublisherNotFound (ID event)))) ∧
  (∀ p, publishers es !! ID event = Some p →
   (Publish es event w).1 = (publisher_Publish p event w).1 ∧
   ((publisher_Publish p event w).2 = None → (Publish es event w).2 = None) ∧
   (∀ e, (publisher_Publish p event w).2 = Some e →
         (Publish es event w).2 = Some (errFromPublisher e))) ∧
  ((∃ id, (Subscribe es eventID ch w).2 = Some (errPublisherNotFound id)) ↔
   publishers es !! eventID = None) ∧
  (publishers es !! eventID = None →
   Subscribe es eventID ch w = (w, Some (errPublisherNotFound eventID))) ∧
  (∀ p, publishers es !! eventID = Some p →
   (Subscribe es eventID ch w).1 = (publisher_Subscribe p ch w).1 ∧
   ((publisher_Subscribe p ch w).2 = None → (Subscribe es eventID ch w).2 = None) ∧
   (∀ e, (publisher_Subscribe p ch w).2 = Some e →
         (Subscribe es eventID ch w).2 = Some (errFromPublisher e))).
Proof.
  unfold Publish, Subscribe, delegated.
  split; [|split; [|split; [|split; [|split]]]].
  - split.
    + intros [id Hid]. destruct (publishers es !! ID event) as [p|]; [|done].
      simpl in Hid. by destruct (publisher_Publish p event w).2.
    + intros ->. by eexists.
  - by intros ->.
  - intros p ->. cbn [fst snd]. split; [done|]. split.
    + by intros ->.
    + by intros e ->.
  - split.
    + intros [id Hid]. destruct (publishers es !! eventID) as [p|]; [|done].
      simpl in Hid. by destruct (publisher_Subscribe p ch w).2.
    + intros ->. by eexists.
  - by intros ->.
  - intros p ->. cbn [fst snd]. split; [done|]. split.
    + by intros ->.
    + by intros e ->.
Qed.

(** *** RegisterPublishers *)

Lemma RegisterPublishers_app (es : EventServer) (l1 l2 : list Publisher) :
  RegisterPublishers es (l1 ++ l2) =
  match RegisterPublishers es l1 with
  | (es1, None) => RegisterPublishers es1 l2
  | (es1, Some e) => (es1, Some e)
  end.
Proof.
  revert es. induction l1 as [|p l1 IH]; intros es; simpl; [done|].
  destruct (publishers es !! publisher_EventID p); [done|]. apply IH.
Qed.

(** A binding is never overwritten or removed, whether the call fails or
    not. *)
Lemma RegisterPublishers_preserves
    (es : EventServer) (pubs : list Publisher) (id : EventID) (p : Publisher) :
  publishers es !! id = Some p →
  publishers (RegisterPublishers es pubs).1 !! id = Some p.
Proof.
  revert es. induction pubs as [|q pubs IH]; intros es Hid; simpl; [done|].
  destruct (publishers es !! publisher_EventID q) eqn:Hq; [done|].
  apply IH. simpl. rewrite lookup_insert_ne; [done|]. congruence.
Qed.

(** Ids outside of the batch are bound as before. *)
Lemma RegisterPublishers_other
    (es : EventServer) (pubs : list Publisher) (id : EventID) :
  id ∉ publisher_EventID <$> pubs →
  publishers (RegisterPublishers es pubs).1 !! id = publishers es !! id.
Proof.
  revert es. induction pubs as [|q pubs IH]; intros es Hid; simpl; [done|].
  rewrite fmap_cons, not_elem_of_cons in Hid. destruct Hid as [Hne Hid].
  destruct (publishers es !! publisher_EventID q) eqn:Hq; [done|].
  rewrite IH by done. simpl. by rewrite lookup_insert_ne.
Qed.

Lemma has_duplicate_cons (es : EventServer) (p : Publisher) (rest : list Publisher) :
  publishers es !! publisher_EventID p = None →
  has_duplicate es (p :: rest) ↔
  has_duplicate {| publishers := <[publisher_EventID p := p]> (publishers es) |} rest.
Proof.
  intros Hp. split.
  - intros [k (pk & Hk & Hdup)]. destruct k as [|k].
    + simpl in Hk. inversion Hk; subst pk.
      destruct Hdup as [[x Hx]|(j & q & Hj & _)]; [congruence|lia].
    + simpl in Hk. exists k, pk. split; [done|].
      destruct Hdup as [[x Hx]|(j & q & Hj & Hq & Hid)].
      * left. simpl. exists x. rewrite lookup_insert_ne; [done|]. congruence.
      * destruct j as [|j].
        -- simpl in Hq. inversion Hq; subst q. left. simpl.
           rewrite Hid. rewrite lookup_insert_eq. by eexists.
        -- right. exists j, q. simpl in Hq. repeat split; [lia|done..].
  - intros [k (pk & Hk & Hdup)]. exists (S k), pk. split; [done|].
    destruct Hdup as [[x Hx]|(j & q & Hj & Hq & Hid)].
    + simpl in Hx.
      destruct (decide (publisher_EventID p = publisher_EventID pk)) as [Heq|Hne].
      * right. exists 0%nat, p. repeat split; [lia|done..].
      * left. rewrite lookup_insert_ne in Hx by done. by exists x.
    + right. exists (S j), q. repeat split; [lia|done..].
Qed.

(** With a duplicate in the batch the call fails, at the first one. *)
Lemma RegisterPublishers_duplicate (es : EventServer) (pubs : list Publisher) :
  has_duplicate es pubs →
  ∃ k p, pubs !! k = Some p ∧ duplicate_at es pubs k ∧
    (RegisterPublishers es pubs).2 =
    Some (errPublisherAlreadyExists (publisher_EventID p)).
Proof.
  revert es. induction pubs as [|p rest IH]; intros es Hdup.
  - destruct Hdup as [k (pk & Hk & _)]. done.
  - simpl. destruct (publishers es !! publisher_EventID p) as [x|] eqn:Hp.
    + exists 0%nat, p. repeat split. exists p. split; [done|]. left. by exists x.
    + apply has_duplicate_cons in Hdup; [|done].
      destruct (IH _ Hdup) as (k & pk & Hk & Hat & Hres).
      exists (S k), pk. repeat split; [done| |done].
      destruct Hat as (pk' & Hk' & Hor). exists pk'. split; [done|].
      destruct Hor as [[y Hy]|(j & q & Hj & Hq & Hid)].
      * simpl in Hy.
        destruct (decide (publisher_EventID p = publisher_EventID pk')) as [Heq|Hne].
        -- right. exists 0%nat, p. repeat split; [lia|done..].
        -- left. rewrite lookup_insert_ne in Hy by done. by exists y.
      * right. exists (S j), q. repeat split; [lia|done..].
Qed.

(** Without a duplicate the call succeeds and binds every publisher. *)
Lemma RegisterPublishers_fresh (es : EventServer) (pubs : list Publisher) :
  ¬ has_duplicate es pubs →
  (RegisterPublishers es pubs).2 = None ∧
  ∀ p, p ∈ pubs →
    publishers es !! publisher_EventID p = None ∧
    publishers (RegisterPublishers es pubs).1 !! publisher_EventID p = Some p.
Proof.
  revert es. induction pubs as [|p rest IH]; intros es Hnd.
  - split; [done|]. intros p Hp. by apply elem_of_nil in Hp.
  - simpl. destruct (publishers es !! publisher_EventID p) as [x|] eqn:Hp.
    + destruct Hnd. exists 0%nat, p. split; [done|]. left. by exists x.
    + rewrite has_duplicate_cons in Hnd by done.
      destruct (IH _ Hnd) as [Hres Hall]. split; [done|].
      intros q Hq. apply elem_of_cons in Hq as [->|Hq].
      * split; [done|]. apply RegisterPublishers_preserves.
        simpl. apply lookup_insert_eq.
      * destruct (Hall q Hq) as [Hnone Hsome]. split; [|done].
        simpl in Hnone.
        destruct (decide (publisher_EventID p = publisher_EventID q)) as [Heq|Hne].
        -- rewrite Heq, lookup_insert_eq in Hnone. done.
        -- by rewrite lookup_insert_ne in Hnone.
Qed.

(** C7: a batch with a publisher whose event id is bound in the registry or
    belongs to an earlier publisher of the batch fails with the
    already-exists error; any other batch succeeds, and then every
    publisher of the batch is bound under its event id. *)
Theorem RegisterPublishers_duplicate_or_all_bound
    (es : EventServer) (pubs : list Publisher) :
  (has_duplicate es pubs →
   ∃ id, (RegisterPublishers es pubs).2 = Some (errPublisherAlreadyExists id)) ∧
  (¬ has_duplicate es pubs →
   (RegisterPublishers es pubs).2 = None ∧
   ∀ p, p ∈ pubs →
     publishers (RegisterPublishers es pubs).1 !! publisher_EventID p = Some p).
Proof.
  split.
  - intros Hdup.
    destruct (RegisterPublishers_duplicate es pubs Hdup) as (k & p & _ & _ & Hres).
    by exists (publisher_EventID p).
  - intros Hnd. destruct (RegisterPublishers_fresh es pubs Hnd) as [Hres Hall].
    split; [done|]. intros p Hp. by apply Hall.
Qed.

(** C9: when the call fails at position [k] (the first duplicate), the
    error names the id of that publisher, and the publishers at the
    positions before [k], whose ids were free before the call, are bound
    after it: nothing is rolled back. *)
Theorem RegisterPublishers_not_atomic
    (es : EventServer) (pubs : list Publisher) (k : nat) (p : Publisher) :
  pubs !! k = Some p →
  ¬ has_duplicate es (take k pubs) →
  duplicate_at es pubs k →
  (RegisterPublishers es pubs).2 =
    Some (errPublisherAlreadyExists (publisher_EventID p)) ∧
  ∀ j q, (j < k)%nat → pubs !! j = Some q →
    publishers es !! publisher_EventID q = None ∧
    publishers (RegisterPublishers es pubs).1 !! publisher_EventID q = Some q.
Proof.
  intros Hk Hnd (p' & Hk' & Hdup).
  assert (p' = p) as -> by congruence.
  destruct (RegisterPublishers_fresh es (take k pubs) Hnd) as [Hres Hall].
  destruct (RegisterPublishers es (take k pubs)) as [es1 r] eqn:Hpre.
  simpl in Hres, Hall. subst r.
  assert (∀ j q, (j < k)%nat → pubs !! j = Some q →
            publishers es !! publisher_EventID q = None ∧
            publishers es1 !! publisher_EventID q = Some q) as Hbefore.
  { intros j q Hj Hq. apply Hall. apply list_elem_of_lookup. exists j.
    by rewrite lookup_take_lt. }
  assert (is_Some (publishers es1 !! publisher_EventID p)) as [x Hx].
  { destruct Hdup as [[x Hx]|(j & q & Hj & Hq & Hid)].
    - exists x. pose proof (RegisterPublishers_preserves es (take k pubs) _ _ Hx) as Hp.
      by rewrite Hpre in Hp.
    - exists q. rewrite <- Hid. by apply (Hbefore j q). }
  assert (RegisterPublishers es pubs =
          (es1, Some (errPublisherAlreadyExists (publisher_EventID p)))) as ->.
  { rewrite <- (take_drop_middle pubs k p Hk).
    rewrite RegisterPublishers_app, Hpre. simpl. by rewrite Hx. }
  split; [done|]. exact Hbefore.
Qed.

(** *** What a registration keeps *)

Lemma RegisterPublishers_success_fresh (es : EventServer) (pubs : list Publisher) :
  (RegisterPublishers es pubs).2 = None → ¬ has_duplicate es pubs.
Proof.
  intros Hok Hdup.
  destruct (RegisterPublishers_duplicate es pubs Hdup) as (k & p & _ & _ & Hres).
  congruence.
Qed.

(** Every binding after the call is a binding from before or binds a
    publisher of the batch under its own id. *)
Lemma RegisterPublishers_from
    (es : EventServer) (pubs : list Publisher) (id : EventID) (p : Publisher) :
  publishers (RegisterPublishers es pubs).1 !! id = Some p →
  publishers es !! id = Some p ∨ (p ∈ pubs ∧ publisher_EventID p = id).
Proof.
  revert es. induction pubs as [|q pubs IH]; intros es; cbn [RegisterPublishers].
  - by left.
  - destruct (publishers es !! publisher_EventID q) eqn:Hq; [by left|].
    intros Hp. apply IH in Hp as [Hp|[Hin Hid]].
    + cbn in Hp. destruct (decide (publisher_EventID q = id)) as [<-|Hne].
      * rewrite lookup_insert_eq in Hp. injection Hp as <-.
        right. split; [apply list_elem_of_here|done].
      * rewrite lookup_insert_ne in Hp by done. by left.
    + right. split; [by apply list_elem_of_further|done].
Qed.

(** X7: whether the call fails or not, a binding of the registry is never
    replaced or removed, an id that no publisher of the batch carries is bound
    as before, and every binding after the call is a binding from before or
    binds a publisher of the batch under its own id. *)
Theorem RegisterPublishers_keeps_bindings
    (es : EventServer) (pubs : list Publisher) (id : EventID) :
  (∀ p, publishers es !! id = Some p →
        publishers (RegisterPublishers es pubs).1 !! id = Some p) ∧
  (id ∉ publisher_EventID <$> pubs →
   publishers (RegisterPublishers es pubs).1 !! id = publishers es !! id) ∧
  (∀ p, publishers (RegisterPublishers es pubs).1 !! id = Some p →
        publishers es !! id = Some p ∨ (p ∈ pubs ∧ publisher_EventID p = id)).
Proof.
  split; [|split].
  - intros p. apply RegisterPublishers_preserves.
  - apply RegisterPublishers_other.
  - intros p. apply RegisterPublishers_from.
Qed.

(** The server after a sequence of [RegisterPublishers] calls on a new
    server, whatever each call returned. *)
Definition registered (batches : list (list Publisher)) : EventServer :=
  foldl (λ es pubs, (RegisterPublishers es pubs).1) NewEventServer batches.

(** X8: on a server that was only written by [RegisterPublishers], every
    publisher is bound under its own event id: [Publish] hands an event only
    to a publisher whose [EventID()] is the id of the event, and
    [Subscribe] a channel only to a publisher of the requested id. *)
Theorem registered_under_own_id
    (batches : list (list Publisher)) (id : EventID) (p : Publisher) :
  publishers (registered batches) !! id = Some p →
  publisher_EventID p = id ∧
  (∀ event w, ID event = id →
     Publish (registered batches) event w = delegated (publisher_Publish p event w)) ∧
  (∀ ch w,
     Subscribe (registered batches) id ch w = delegated (publisher_Subscribe p ch w)).
Proof.
  intros Hp. split; [|split].
  - revert id p Hp. unfold registered.
    induction batches as [|pubs batches IH] using rev_ind; intros id p Hp.
    + cbn in Hp. by rewrite lookup_empty in Hp.
    + rewrite foldl_app in Hp. cbn [foldl] in Hp.
      destruct (RegisterPublishers_from _ pubs id p Hp) as [Hold|[_ Hid]];
        [by apply IH|done].
  - intros event w <-. unfold Publish. by rewrite Hp.
  - intros ch w. unfold Subscribe. by rewrite Hp.
Qed.

(** X9: one call on two batches in a row is the call on the first batch
    followed, when it succeeded, by the call on the second one; when the
    first fails, the second batch is not looked at. *)
Theorem RegisterPublishers_concat (es : EventServer) (l1 l2 : list Publisher) :
  ((RegisterPublishers es l1).2 = None →
   RegisterPublishers es (l1 ++ l2) =
   RegisterPublishers (RegisterPublishers es l1).1 l2) ∧
  ((RegisterPublishers es l1).2 ≠ None →
   RegisterPublishers es (l1 ++ l2) = RegisterPublishers es l1).
Proof.
  revert es. induction l1 as [|p l1 IH]; intros es; cbn [app RegisterPublishers].
  - split; [done|]. by intros [].
  - destruct (publishers es !! publisher_EventID p); [|apply IH].
    split; [done|]. done.
Qed.

(** X10: a batch that was registered cannot be registered again: the second
    call fails on the first publisher of the batch and leaves the server as
    it is. *)
Theorem RegisterPublishers_twice
    (es : EventServer) (p : Publisher) (rest : list Publisher) :
  (RegisterPublishers es (p :: rest)).2 = None →
  RegisterPublishers (RegisterPublishers es (p :: rest)).1 (p :: rest) =
  ((RegisterPublishers es (p :: rest)).1,
   Some (errPublisherAlreadyExists (publisher_EventID p))).
Proof.
  intros Hok. apply RegisterPublishers_success_fresh in Hok as Hnd.
  destruct (RegisterPublishers_fresh es (p :: rest) Hnd) as [_ Hall].
  destruct (Hall p) as [_ Hp]; [apply list_elem_of_here|].
  remember (RegisterPublishers es (p :: rest)).1 as es' eqn:Hes.
  cbn [RegisterPublishers]. by rewrite Hp.
Qed.

(** X11: after a call that succeeded, [Subscribe] under the id of a
    publisher of the batch and [Publish] of an event of that id are the
    [Subscribe] and [Publish] of that publisher: they leave the state the
    publisher leaves and return nil when it returns nil and its error when it
    returns one; before the call, both returned the not-found error. *)
Theorem RegisterPublishers_then_dispatch
    (es : EventServer) (pubs : list Publisher) (p : Publisher)
    (event : BaseEvent) (ch : ChanT) (w : World) :
  (RegisterPublishers es pubs).2 = None → p ∈ pubs →
  ID event = publisher_EventID p →
  Publish es event w = (w, Some (errPublisherNotFound (ID event))) ∧
  Subscribe es (publisher_EventID p) ch w =
    (w, Some (errPublisherNotFound (publisher_EventID p))) ∧
  Publish (RegisterPublishers es pubs).1 event w =
    ((publisher_Publish p event w).1,
     match (publisher_Publish p event w).2 with
     | Some e => Some (errFromPublisher e)
     | None => None
     end) ∧
  Subscribe (RegisterPublishers es pubs).1 (publisher_EventID p) ch w =
    ((publisher_Subscribe p ch w).1,
     match (publisher_Subscribe p ch w).2 with
     | Some e => Some (errFromPublisher e)
     | None => None
     end).
Proof.
  intros Hok Hin Hid. apply RegisterPublishers_success_fresh in Hok.
  destruct (RegisterPublishers_fresh es pubs Hok) as [_ Hall].
  destruct (Hall p Hin) as [Hnone Hsome].
  unfold Publish, Subscribe, delegated. rewrite Hid, Hnone, Hsome.
  cbn [fst snd]. split; [done|]. split; [done|]. split.
  - by destruct (publisher_Publish p event w).2.
  - by destruct (publisher_Subscribe p ch w).2.
Qed.

(** X12: a call that succeeds adds one binding per publisher of the batch. *)
Theorem RegisterPublishers_size (es : EventServer) (pubs : list Publisher) :
  (RegisterPublishers es pubs).2 = None →
  size (publishers (RegisterPublishers es pubs).1) =
    (size (publishers es) + length pubs)%nat.
Proof.
  revert es. induction pubs as [|p pubs IH]; intros es; cbn [RegisterPublishers length].
  - intros _. cbn. lia.
  - destruct (publishers es !! publisher_EventID p) eqn:Hp; [done|].
    intros Hok. rewrite IH by done. cbn [publishers].
    rewrite map_size_insert_None by done. lia.
Qed.

End event_server.

(** *** A registry of two topics *)

(** Publishers named by a topic and a number; publishing appends the number
    to the world, and publisher 0 of any topic refuses every event. *)
Definition sample_Publish (p : string * nat) (event : string * nat) (w : list nat)
  : list nat * option string :=
  if (p.2 =? 0)%nat then (w, Some "refused") else (w ++ [event.2], None).

Definition sample_Subscribe (p : string * nat) (ch : nat) (w : list nat)
  : list nat * option string :=
  (w, None).

Definition sample_server
  : EventServer (EventID := string) (Publisher := (string * nat)%type) :=
  (RegisterPublishers (PublisherError := string) fst NewEventServer
     [("blocks", 1%nat); ("blobs", 2%nat)]).1.

Example sample_server_blocks :
  publishers sample_server !! "blocks" = Some ("blocks", 1%nat).
Proof. reflexivity. Qed.

Example sample_publish_unknown :
  Publish fst sample_Publish sample_server ("deposits", 7%nat) [] =
  ([], Some (errPublisherNotFound "deposits")).
Proof. reflexivity. Qed.

Example sample_publish_blocks :
  Publish fst sample_Publish sample_server ("blocks", 7%nat) [] = ([7%nat], None).
Proof. reflexivity. Qed.

Lemma RegisterPublishers_duplicate_or_all_bound_witness :
  (∃ id, (RegisterPublishers (PublisherError := string) fst sample_server
            [("deposits", 3%nat); ("blobs", 4%nat)]).2 =
         Some (errPublisherAlreadyExists id)) ∧
  (RegisterPublishers (PublisherError := string) fst sample_server
     [("deposits", 3%nat); ("slots", 4%nat)]).2 = None.
Proof.
  split.
  - apply (RegisterPublishers_duplicate_or_all_bound (PublisherError := string) fst
             sample_server [("deposits", 3%nat); ("blobs", 4%nat)]).
    exists 1%nat, ("blobs", 4%nat). split; [done|]. left. by eexists.
  - apply (RegisterPublishers_duplicate_or_all_bound (PublisherError := string) fst
             sample_server [("deposits", 3%nat); ("slots", 4%nat)]).
    intros [k (p & Hk & Hdup)].
    destruct k as [|[|k]]; simpl in Hk; [| |done]; inversion Hk; subst p.
    + destruct Hdup as [[x Hx]|(j & q & Hj & _)]; [by vm_compute in Hx|lia].
    + destruct Hdup as [[x Hx]|(j & q & Hj & Hq & Hid)]; [by vm_compute in Hx|].
      destruct j as [|j]; [|lia]. simpl in Hq. inversion Hq; subst q. done.
Defined.

Lemma RegisterPublishers_not_atomic_witness :
  (RegisterPublishers (PublisherError := string) fst sample_server
     [("deposits", 3%nat); ("blobs", 4%nat)]).2 =
    Some (errPublisherAlreadyExists "blobs") ∧
  ∀ j q, (j < 1)%nat → [("deposits", 3%nat); ("blobs", 4%nat)] !! j = Some q →
    publishers sample_server !! q.1 = None ∧
    publishers (RegisterPublishers (PublisherError := string) fst sample_server
       [("deposits", 3%nat); ("blobs", 4%nat)]).1 !! q.1 = Some q.
Proof.
  apply (RegisterPublishers_not_atomic (PublisherError := string) fst
           sample_server [("deposits", 3%nat); ("blobs", 4%nat)] 1 ("blobs", 4%nat)).
  - reflexivity.
  - intros [k (p & Hk & Hdup)].
    destruct k as [|k]; simpl in Hk; [|done]. inversion Hk; subst p.
    destruct Hdup as [[x Hx]|(j & q & Hj & _)]; [by vm_compute in Hx|lia].
  - exists ("blobs", 4%nat). split; [done|]. left. by eexists.
Defined.

Lemma registered_under_own_id_witness :
  ("blobs", 2%nat).1 = "blobs" ∧
  (∀ (event : string * nat) w, event.1 = "blobs" →
     Publish fst sample_Publish
       (registered (PublisherError := string) fst
          [[("blocks", 1%nat); ("blobs", 2%nat)]; [("slots", 3%nat); ("blobs", 4%nat)]])
       event w = delegated (sample_Publish ("blobs", 2%nat) event w)) ∧
  (∀ ch w,
     Subscribe sample_Subscribe
       (registered (PublisherError := string) fst
          [[("blocks", 1%nat); ("blobs", 2%nat)]; [("slots", 3%nat); ("blobs", 4%nat)]])
       "blobs" ch w = delegated (sample_Subscribe ("blobs", 2%nat) ch w)).
Proof.
  apply (registered_under_own_id (PublisherError := string) fst fst
           sample_Publish sample_Subscribe
           [[("blocks", 1%nat); ("blobs", 2%nat)]; [("slots", 3%nat); ("blobs", 4%nat)]]
           "blobs" ("blobs", 2%nat)).
  reflexivity.
Defined.

Lemma RegisterPublishers_twice_witness :
  RegisterPublishers (PublisherError := string) fst
    (RegisterPublishers (PublisherError := string) fst NewEventServer
       [("blocks", 1%nat); ("blobs", 2%nat)]).1
    [("blocks", 1%nat); ("blobs", 2%nat)] =
  ((RegisterPublishers (PublisherError := string) fst NewEventServer
      [("blocks", 1%nat); ("blobs", 2%nat)]).1,
   Some (errPublisherAlreadyExists "blocks")).
Proof.
  apply (RegisterPublishers_twice (PublisherError := string) fst NewEventServer
           ("blocks", 1%nat) [("blobs", 2%nat)]).
  reflexivity.
Defined.

(** A server with a publisher that accepts and one that refuses. *)
Definition sample_refusing_server
  : EventServer (EventID := string) (Publisher := (string * nat)%type) :=
  (RegisterPublishers (PublisherError := string) fst NewEventServer
     [("blocks", 1%nat); ("deposits", 0%nat)]).1.

Lemma RegisterPublishers_then_dispatch_witness :
  Publish fst sample_Publish NewEventServer ("deposits", 7%nat) [5%nat] =
    ([5%nat], Some (errPublisherNotFound "deposits")) ∧
  Subscribe sample_Subscribe NewEventServer "deposits" 5%nat [5%nat] =
    ([5%nat], Some (errPublisherNotFound "deposits")) ∧
  Publish fst sample_Publish
    (RegisterPublishers (PublisherError := string) fst NewEventServer
       [("blocks", 1%nat); ("deposits", 0%nat)]).1 ("deposits", 7%nat) [5%nat] =
    ([5%nat], Some (errFromPublisher "refused")) ∧
  Subscribe sample_Subscribe
    (RegisterPublishers (PublisherError := string) fst NewEventServer
       [("blocks", 1%nat); ("deposits", 0%nat)]).1 "deposits" 5%nat [5%nat] =
    ([5%nat], None).
Proof.
  apply (RegisterPublishers_then_dispatch fst fst sample_Publish sample_Subscribe
           NewEventServer [("blocks", 1%nat); ("deposits", 0%nat)] ("deposits", 0%nat)
           ("deposits", 7%nat) 5%nat [5%nat]).
  - reflexivity.
  - apply list_elem_of_further, list_elem_of_here.
  - reflexivity.
Defined.

Lemma Publish_Subscribe_not_found_iff_witness :
  (Publish fst sample_Publish
     sample_refusing_server ("deposits", 7%nat) [5%nat]).2 =
    Some (errFromPublisher "refused") ∧
  (Publish fst sample_Publish
     sample_refusing_server ("blocks", 7%nat) [5%nat]).1 =
    [5%nat; 7%nat] ∧
  (Publish fst sample_Publish
     sample_refusing_server ("blocks", 7%nat) [5%nat]).2 =
    None.
Proof.
  destruct (Publish_Subscribe_not_found_iff fst sample_Publish sample_Subscribe
              sample_refusing_server ("deposits", 7%nat) "deposits" 5%nat [5%nat])
    as (_ & _ & Hrefuse & _).
  destruct (Publish_Subscribe_not_found_iff fst sample_Publish sample_Subscribe
              sample_refusing_server ("blocks", 7%nat) "blocks" 5%nat [5%nat])
    as (_ & _ & Haccept & _).
  destruct (Hrefuse ("deposits", 0%nat) eq_refl) as (_ & _ & Herr).
  destruct (Haccept ("blocks", 1%nat) eq_refl) as (Hstate & Hnil & _).
  split; [exact (Herr "refused" eq_refl)|].
  split; [exact Hstate|exact (Hnil eq_refl)].
Defined.

Lemma RegisterPublishers_size_witness :
  size (publishers sample_server) =
    (size (publishers (NewEventServer (EventID := string)
                         (Publisher := (string * nat)%type))) +
     length [("blocks", 1%nat); ("blobs", 2%nat)])%nat.
Proof.
  apply (RegisterPublishers_size (PublisherError := string) fst NewEventServer
           [("blocks", 1%nat); ("blobs", 2%nat)]).
  reflexivity.
Defined.

End Server.

(** ** The blob processor (package blob) *)

Module Blob.

Section processor.

(** [math.Slot], [common.ChainSpec], the block header with [GetSlot()] and
    the sidecar with [GetBeaconBlockHeader()]; a [BlobSidecarsT] is the list
    of its sidecars ([Len()] its length, [Get(i)] its element [i]). *)
Context {Slot ChainSpec BeaconBlockHeader BlobSidecar : Type}.
Context (GetSlot : BeaconBlockHeader → Slot).
Context (GetBeaconBlockHeader : BlobSidecar → BeaconBlockHeader).

(** The [AvailabilityStoreT] with its method [Persist]: the store it leaves
    and its error (nil is [Ok ()]). *)
Context {AvailabilityStore : Type}.
Context (Persist :
  AvailabilityStore → Slot → list BlobSidecar → AvailabilityStore * outcome unit).

(** [ConsensusSidecarsT]: [GetSidecars()] and [GetHeader()]. *)
Record ConsensusSidecars : Type := {
  GetSidecars : list BlobSidecar;
  GetHeader : BeaconBlockHeader;
}.

(** The fields of [Processor] the two methods use.  [verifySidecars] is the
    method of the processor's verifier, taken as it is declared: sidecars,
    offset and header to an error. *)
Record Processor : Type := {
  chainSpec : ChainSpec;
  verifySidecars : list BlobSidecar → Z → BeaconBlockHeader → outcome unit;
  blockBodyOffsetFn : Slot → ChainSpec → outcome Z;
}.

(** The calls the processor makes to its collaborators.  The two metrics
    calls carry the number of sidecars (and a time that is not modelled). *)
Inductive call : Type :=
| measureVerifySidecarsDuration (n : Z)
| measureProcessSidecarsDuration (n : Z)
| call_blockBodyOffsetFn (slot : Slot)
| call_verifySidecars (sidecars : list BlobSidecar) (kzgOffset : Z)
    (blkHeader : BeaconBlockHeader)
| call_Persist (slot : Slot) (sidecars : list BlobSidecar).

(** The availability store handed to [ProcessSidecars] and the calls made so
    far, oldest first. *)
Record world : Type := mkWorld {
  store : AvailabilityStore;
  calls : list call;
}.

Definition log (c : call) : StateM world unit :=
  λ w, ((), {| store := store w; calls := calls w ++ [c] |}).

Definition do_Persist (slot : Slot) (sidecars : list BlobSidecar)
  : StateM world (outcome unit) :=
  λ w, let '(avs, err) := Persist (store w) slot sidecars in
       (err, {| store := avs; calls := calls w ++ [call_Persist slot sidecars] |}).

Definition VerifySidecars (sp : Processor) (cs : ConsensusSidecars)
  : StateM world (outcome unit) :=
  let sidecars := GetSidecars cs in
  let blkHeader := GetHeader cs in
  defer (log (measureVerifySidecarsDuration (Z.of_nat (length sidecars))))
    (if (length sidecars =? 0)%nat then mret (Ok ())
     else
       _ ← log (call_blockBodyOffsetFn (GetSlot blkHeader));
       match blockBodyOffsetFn sp (GetSlot blkHeader) (chainSpec sp) with
       | Ok kzgOffset =>
         _ ← log (call_verifySidecars sidecars kzgOffset blkHeader);
         mret (verifySidecars sp sidecars kzgOffset blkHeader)
       | Err e => mret (Err e)
       | Panic p => mret (Panic p)
       end).

Definition ProcessSidecars (sp : Processor) (sidecars : list BlobSidecar)
  : StateM world (outcome unit) :=
  defer (log (measureProcessSidecarsDuration (Z.of_nat (length sidecars))))
    (if (length sidecars =? 0)%nat then mret (Ok ())
     else
       match index sidecars 0 with
       | Ok first =>
         do_Persist (GetSlot (GetBeaconBlockHeader first)) sidecars
       | Err e => mret (Err e)
       | Panic p => mret (Panic p)
       end).

(** The [Persist] calls among the calls, and the verification calls. *)
Definition persists (cs : list call) : list (Slot * list BlobSidecar) :=
  omap (λ c, match c with call_Persist s l => Some (s, l) | _ => None end) cs.

Definition is_verification (c : call) : bool :=
  match c with
  | call_blockBodyOffsetFn _ | call_verifySidecars _ _ _ => true
  | _ => false
  end.

Lemma persists_app (l1 l2 : list call) :
  persists (l1 ++ l2) = persists l1 ++ persists l2.
Proof. apply omap_app. Qed.

Lemma filter_verification_app (l1 l2 : list call) :
  filter is_verification (l1 ++ l2) =
  filter is_verification l1 ++ filter is_verification l2.
Proof. apply filter_app. Qed.

(** What [ProcessSidecars] does with a batch that has a first sidecar. *)
Lemma ProcessSidecars_cons (sp : Processor) (first : BlobSidecar)
    (rest : list BlobSidecar) (w : world) :
  ProcessSidecars sp (first :: rest) w =
  let slot := GetSlot (GetBeaconBlockHeader first) in
  let r := Persist (store w) slot (first :: rest) in
  (r.2, {| store := r.1;
           calls := calls w ++ [call_Persist slot (first :: rest)] ++
                    [measureProcessSidecarsDuration
                       (Z.of_nat (length (first :: rest)))] |}).
Proof.
  unfold ProcessSidecars, defer, do_Persist, log. cbn.
  destruct (Persist (store w) _ (first :: rest)) as [avs err]. cbn.
  by rewrite <- app_assoc.
Qed.

(** C5: on a batch that is not empty, [ProcessSidecars] calls [Persist] of
    the availability store once, with the slot of the header of the first
    sidecar and the whole batch; the store and the error it returns are those
    of that call. *)
Theorem ProcessSidecars_persists_once (sp : Processor)
    (sidecars : list BlobSidecar) (first : BlobSidecar) (w : world) :
  sidecars !! 0%nat = Some first →
  persists (calls (ProcessSidecars sp sidecars w).2) =
    persists (calls w) ++ [(GetSlot (GetBeaconBlockHeader first), sidecars)] ∧
  (store (ProcessSidecars sp sidecars w).2, (ProcessSidecars sp sidecars w).1) =
    Persist (store w) (GetSlot (GetBeaconBlockHeader first)) sidecars.
Proof.
  destruct sidecars as [|s0 rest]; [done|]. intros [= ->].
  rewrite ProcessSidecars_cons. cbn -[persists].
  split; [|by destruct (Persist _ _ _)].
  by rewrite !persists_app.
Qed.

(** C6: on a batch of length 0, [VerifySidecars] and [ProcessSidecars]
    return nil; the only call either makes is its metrics call: no offset is
    computed, the verifier does not run, [Persist] is not called, and the
    store is the one before the call. *)
Theorem empty_batch_is_noop (sp : Processor) (cs : ConsensusSidecars) (w : world) :
  length (GetSidecars cs) = 0%nat →
  (VerifySidecars sp cs w).1 = Ok () ∧
  calls (VerifySidecars sp cs w).2 = calls w ++ [measureVerifySidecarsDuration 0] ∧
  store (VerifySidecars sp cs w).2 = store w ∧
  (ProcessSidecars sp (GetSidecars cs) w).1 = Ok () ∧
  calls (ProcessSidecars sp (GetSidecars cs) w).2 =
    calls w ++ [measureProcessSidecarsDuration 0] ∧
  store (ProcessSidecars sp (GetSidecars cs) w).2 = store w ∧
  persists (calls (ProcessSidecars sp (GetSidecars cs) w).2) = persists (calls w) ∧
  filter is_verification (calls (VerifySidecars sp cs w).2) =
    filter is_verification (calls w).
Proof.
  intros Hlen. unfold VerifySidecars, ProcessSidecars, defer, log.
  rewrite Hlen. cbn -[persists filter].
  rewrite persists_app, filter_verification_app. cbn.
  by rewrite ?app_nil_r.
Qed.

(** *** Verification *)

(** The calls and the result of [VerifySidecars] on a batch that is not
    empty, by the result of the offset function. *)
Lemma VerifySidecars_nonempty (sp : Processor) (cs : ConsensusSidecars) (w : world) :
  length (GetSidecars cs) ≠ 0%nat →
  VerifySidecars sp cs w =
  let slot := GetSlot (GetHeader cs) in
  let n := Z.of_nat (length (GetSidecars cs)) in
  match blockBodyOffsetFn sp slot (chainSpec sp) with
  | Ok kzgOffset =>
    (verifySidecars sp (GetSidecars cs) kzgOffset (GetHeader cs),
     {| store := store w;
        calls := calls w ++
                 [call_blockBodyOffsetFn slot;
                  call_verifySidecars (GetSidecars cs) kzgOffset (GetHeader cs);
                  measureVerifySidecarsDuration n] |})
  | Err e =>
    (Err e,
     {| store := store w;
        calls := calls w ++
                 [call_blockBodyOffsetFn slot; measureVerifySidecarsDuration n] |})
  | Panic p =>
    (Panic p,
     {| store := store w;
        calls := calls w ++
                 [call_blockBodyOffsetFn slot; measureVerifySidecarsDuration n] |})
  end.
Proof.
  intros Hlen. unfold VerifySidecars, defer, log.
  destruct (Nat.eqb_spec (length (GetSidecars cs)) 0) as [|_]; [done|].
  unfold mbind, StateM_bind, mret, StateM_ret. cbn zeta.
  destruct (blockBodyOffsetFn sp _ _) as [off|e|p]; cbn;
    by rewrite <- ?app_assoc.
Qed.

(** X13: [VerifySidecars] leaves the availability store alone, whatever the
    batch and whatever the offset function and the verifier return: the store
    is the one before the call, no [Persist] call is made, and the last call
    is the metrics call with the size of the batch. *)
Theorem VerifySidecars_leaves_store (sp : Processor) (cs : ConsensusSidecars) (w : world) :
  store (VerifySidecars sp cs w).2 = store w ∧
  persists (calls (VerifySidecars sp cs w).2) = persists (calls w) ∧
  last (calls (VerifySidecars sp cs w).2) =
    Some (measureVerifySidecarsDuration (Z.of_nat (length (GetSidecars cs)))).
Proof.
  destruct (decide (length (GetSidecars cs) = 0%nat)) as [Hz|Hnz].
  - unfold VerifySidecars, defer, log. rewrite Hz. cbn -[persists last].
    rewrite persists_app, last_snoc. cbn. by rewrite app_nil_r.
  - rewrite VerifySidecars_nonempty by done. cbn zeta.
    destruct (blockBodyOffsetFn sp _ _) as [off|e|p]; cbn -[persists last];
      rewrite persists_app, last_app; cbn [persists omap last];
      (split; [done|]); (split; [by rewrite app_nil_r|done]).
Qed.

(** X14: on a batch that is not empty, an error of the offset function is
    the result of [VerifySidecars] and the verifier does not run; with an
    offset, the verifier runs once, on the batch, that offset and the header,
    and its result is the result. *)
Theorem VerifySidecars_offset_then_verifier
    (sp : Processor) (cs : ConsensusSidecars) (w : world) :
  length (GetSidecars cs) ≠ 0%nat →
  (∀ e, blockBodyOffsetFn sp (GetSlot (GetHeader cs)) (chainSpec sp) = Err e →
     (VerifySidecars sp cs w).1 = Err e ∧
     filter is_verification (calls (VerifySidecars sp cs w).2) =
       filter is_verification (calls w) ++
       [call_blockBodyOffsetFn (GetSlot (GetHeader cs))]) ∧
  (∀ kzgOffset,
     blockBodyOffsetFn sp (GetSlot (GetHeader cs)) (chainSpec sp) = Ok kzgOffset →
     (VerifySidecars sp cs w).1 =
       verifySidecars sp (GetSidecars cs) kzgOffset (GetHeader cs) ∧
     filter is_verification (calls (VerifySidecars sp cs w).2) =
       filter is_verification (calls w) ++
       [call_blockBodyOffsetFn (GetSlot (GetHeader cs));
        call_verifySidecars (GetSidecars cs) kzgOffset (GetHeader cs)]).
Proof.
  intros Hlen. rewrite VerifySidecars_nonempty by done. cbn zeta.
  split.
  - intros e ->. cbn -[filter]. by rewrite filter_verification_app.
  - intros off ->. cbn -[filter]. by rewrite filter_verification_app.
Qed.

End processor.

(** *** A store that keeps the batches by slot *)

Definition sample_Persist (avs : gmap Z (list Z)) (slot : Z) (sidecars : list Z)
  : gmap Z (list Z) * outcome unit :=
  (<[slot := sidecars]> avs, Ok ()).

Definition sample_processor : Processor (Slot := Z) (ChainSpec := unit) := {|
  chainSpec := ();
  verifySidecars (sidecars : list Z) (kzgOffset : Z) (hdr : Z) := Ok ();
  blockBodyOffsetFn slot cs := Ok 0;
|}.

Lemma ProcessSidecars_persists_once_witness :
  persists (calls (ProcessSidecars (λ hdr, hdr) (λ sc, sc / 10) sample_Persist
                     sample_processor [70; 71] (mkWorld ∅ [])).2) =
    [(7, [70; 71])] ∧
  store (ProcessSidecars (λ hdr, hdr) (λ sc, sc / 10) sample_Persist
           sample_processor [70; 71] (mkWorld ∅ [])).2 !! 7 = Some [70; 71].
Proof.
  destruct (ProcessSidecars_persists_once (λ hdr, hdr) (λ sc, sc / 10) sample_Persist
              sample_processor [70; 71] 70 (mkWorld ∅ []) eq_refl) as [Hcalls Hstore].
  split; [exact Hcalls|].
  apply (f_equal fst) in Hstore. cbn [fst] in Hstore. rewrite Hstore.
  reflexivity.
Defined.

Lemma empty_batch_is_noop_witness :
  (VerifySidecars (λ hdr, hdr) sample_processor
     {| GetSidecars := []; GetHeader := 7 |}
     (mkWorld (∅ : gmap Z (list Z)) [])).1 = Ok () ∧
  store (ProcessSidecars (λ hdr, hdr) (λ sc, sc / 10) sample_Persist
           sample_processor [] (mkWorld ∅ [])).2 = ∅.
Proof.
  destruct (empty_batch_is_noop (λ hdr, hdr) (λ sc, sc / 10) sample_Persist
              sample_processor {| GetSidecars := []; GetHeader := 7 |}
              (mkWorld ∅ []) eq_refl) as (Hv & _ & _ & _ & _ & Hs & _).
  split; [exact Hv|exact Hs].
Defined.

Lemma VerifySidecars_offset_then_verifier_witness :
  (VerifySidecars (λ hdr, hdr) sample_processor
     {| GetSidecars := [70; 71]; GetHeader := 7 |}
     (mkWorld (∅ : gmap Z (list Z)) [])).1 = Ok () ∧
  filter is_verification
    (calls (VerifySidecars (λ hdr, hdr) sample_processor
              {| GetSidecars := [70; 71]; GetHeader := 7 |}
              (mkWorld (∅ : gmap Z (list Z)) [])).2) =
    [] ++ [call_blockBodyOffsetFn 7; call_verifySidecars [70; 71] 0 7].
Proof.
  apply (proj2 (VerifySidecars_offset_then_verifier (λ hdr, hdr) sample_processor
                  {| GetSidecars := [70; 71]; GetHeader := 7 |}
                  (mkWorld (∅ : gmap Z (list Z)) []) ltac:(done)) 0).
  reflexivity.
Defined.

End Blob.

(** ** The finalize-block middleware (package middleware) *)

Module Middleware.

(** A Go [error]: nil or a message. *)
Definition error : Type := option string.

(** The conversion [uint64(v)] of an [int64]. *)
Definition to_uint64 (v : Z) : Z := v mod 2 ^ 64.

(** [cometabci.FinalizeBlockRequest], the fields the middleware reads. *)
Record FinalizeBlockRequest : Type := {
  Txs : list (list Byte.byte);
  Height : Z;
  SyncingToHeight : Z;
}.

(** Modelled from the spec: the declaration of the constants
    [BeaconBlockTxIndex] and [BlobSidecarsTxIndex] of package [middleware] is
    missing.  Position 0 carries the SSZ-encoded beacon block, position 1
    the SSZ-encoded blob sidecars. *)
Definition BeaconBlockTxIndex : nat := 0.
Definition BlobSidecarsTxIndex : nat := 1.

(** [iter.MapErr] of the conc library: every element mapped, each result at
    the position of its element, and the errors joined (nil when there is
    none).  The library maps concurrently and joins the errors in the order
    they occur; here they are in the order of the elements. *)
Definition MapErr {T R} (f : T → R * error) (input : list T)
  : list R * option (list string) :=
  let errs := omap (λ t, (f t).2) input in
  ((λ t, (f t).1) <$> input, if decide (errs = []) then None else Some errs).

Section finalize.

Context {BeaconBlock BlobSidecars ValidatorUpdate HostValidatorUpdate : Type}.
Context {ChainSpec ChainService : Type}.
(** The method [NewFromSSZ([]byte, uint32)] of [BeaconBlockT], and the
    decoder of [BlobsSidecarsT]; both take the fork version. *)
Context (NewFromSSZ : list Byte.byte → Z → BeaconBlock + string).
Context (UnmarshalBlobSidecars : list Byte.byte → Z → BlobSidecars + string).
(** [chainSpec.ActiveForkVersionForSlot], a [uint32] for a slot. *)
Context (ActiveForkVersionForSlot : ChainSpec → Z → Z).
(** [chainService.ProcessBlockAndBlobs(ctx, blk, blobs, syncingToHeight)]:
    the service it leaves, the validator updates and the error. *)
Context (ProcessBlockAndBlobs :
  ChainService → BeaconBlock → BlobSidecars → bool →
  ChainService * (list ValidatorUpdate * error)).
(** [convertValidatorUpdate] of package [middleware], the conversion of one
    update into the format of the host consensus, with its error. *)
Context (convertValidatorUpdate : ValidatorUpdate → HostValidatorUpdate * error).

(** Modelled from the spec: the code of
    [encoding.ExtractBlobsAndBlockFromRequest] is missing.  It decodes the
    beacon block from the transaction at [beaconBlkIndex] and the blob
    sidecars from the transaction at [blobSidecarsIndex], with the decoders
    of the given fork version; a missing transaction or a failed decoding is
    an error. *)
Definition ExtractBlobsAndBlockFromRequest (req : FinalizeBlockRequest)
    (beaconBlkIndex blobSidecarsIndex : nat) (forkVersion : Z)
  : (BeaconBlock * BlobSidecars) + string :=
  match Txs req !! beaconBlkIndex with
  | None => inr "no beacon block in request"
  | Some blkBz =>
    match NewFromSSZ blkBz forkVersion with
    | inr e => inr e
    | inl blk =>
      match Txs req !! blobSidecarsIndex with
      | None => inr "no blob sidecars in request"
      | Some blobsBz =>
        match UnmarshalBlobSidecars blobsBz forkVersion with
        | inr e => inr e
        | inl blobs => inl (blk, blobs)
        end
      end
    end
  end.

(** The [FinalizeBlockMiddleware] struct: the chain spec and the cached
    validator updates; its chain service and metrics are behind references,
    in the [world]. *)
Record FinalizeBlockMiddleware : Type := {
  chainSpec : ChainSpec;
  valUpdates : list ValidatorUpdate;
}.

Inductive call : Type :=
| measureEndBlockDuration
| call_ProcessBlockAndBlobs (blk : BeaconBlock) (blobs : BlobSidecars)
    (syncingToHeight : bool).

Record world : Type := mkWorld {
  chainService : ChainService;
  calls : list call;
}.

Definition log (c : call) : StateM world unit :=
  λ w, ((), {| chainService := chainService w; calls := calls w ++ [c] |}).

Definition do_ProcessBlockAndBlobs (blk : BeaconBlock) (blobs : BlobSidecars)
    (syncingToHeight : bool) : StateM world (list ValidatorUpdate * error) :=
  λ w, let '(svc, r) := ProcessBlockAndBlobs (chainService w) blk blobs syncingToHeight in
       (r, {| chainService := svc;
              calls := calls w ++ [call_ProcessBlockAndBlobs blk blobs syncingToHeight] |}).

(** The receiver is a pointer: the middleware the call leaves behind is
    returned next to the error. *)
Definition PreBlock (h : FinalizeBlockMiddleware) (req : FinalizeBlockRequest)
  : StateM world (FinalizeBlockMiddleware * error) :=
  defer (log measureEndBlockDuration)
    (match
       ExtractBlobsAndBlockFromRequest req BeaconBlockTxIndex BlobSidecarsTxIndex
         (ActiveForkVersionForSlot (chainSpec h) (to_uint64 (Height req)))
     with
     | inr err => mret (h, Some err)
     | inl (blk, blobs) =>
       r ← do_ProcessBlockAndBlobs blk blobs
             (bool_decide (SyncingToHeight req = Height req));
       mret ({| chainSpec := chainSpec h; valUpdates := r.1 |}, r.2)
     end).

Definition EndBlock (h : FinalizeBlockMiddleware)
  : list HostValidatorUpdate * option (list string) :=
  MapErr convertValidatorUpdate (valUpdates h).

Lemma to_uint64_int64 (v : Z) : 0 ≤ v < 2 ^ 63 → to_uint64 v = v.
Proof. intros Hv. unfold to_uint64. apply Z.mod_small. lia. Qed.

Lemma MapErr_results {T R} (f : T → R * error) (input : list T) :
  (MapErr f input).1 = (λ t, (f t).1) <$> input ∧
  length (MapErr f input).1 = length input.
Proof. split; [done|]. unfold MapErr. cbn. by rewrite length_fmap. Qed.

(** What [PreBlock] does once the request is decoded. *)
Lemma PreBlock_decoded (h : FinalizeBlockMiddleware) (req : FinalizeBlockRequest)
    (blk : BeaconBlock) (blobs : BlobSidecars) (w : world) :
  ExtractBlobsAndBlockFromRequest req BeaconBlockTxIndex BlobSidecarsTxIndex
    (ActiveForkVersionForSlot (chainSpec h) (to_uint64 (Height req))) =
    inl (blk, blobs) →
  PreBlock h req w =
  let syncing := bool_decide (SyncingToHeight req = Height req) in
  let r := ProcessBlockAndBlobs (chainService w) blk blobs syncing in
  (({| chainSpec := chainSpec h; valUpdates := r.2.1 |}, r.2.2),
   {| chainService := r.1;
      calls := calls w ++ [call_ProcessBlockAndBlobs blk blobs syncing] ++
               [measureEndBlockDuration] |}).
Proof.
  intros Hdec. unfold PreBlock, defer. rewrite Hdec.
  unfold do_ProcessBlockAndBlobs, log, mbind, StateM_bind, mret, StateM_ret.
  destruct (ProcessBlockAndBlobs _ blk blobs _) as [svc [ups err]]. cbn.
  by rewrite <- app_assoc.
Qed.

(** C4: [PreBlock] takes the fork version active for the slot
    [math.Slot(req.Height)], which is the height itself for every height an
    [int64] that is not negative can hold.  When the transaction at position
    0 decodes to a block and the one at position 1 to blob sidecars,
    [PreBlock] makes one call of [ProcessBlockAndBlobs], on that block and
    those sidecars, with the flag that says whether [SyncingToHeight] equals
    [Height]; it returns the error of that call, and [EndBlock] then returns
    the updates of that call, each converted.  When the request does not
    decode, [PreBlock] returns the error, makes no call of the chain service
    and leaves the cached updates as they were. *)
Theorem PreBlock_EndBlock (h : FinalizeBlockMiddleware)
    (req : FinalizeBlockRequest) (w : world) :
  (0 ≤ Height req < 2 ^ 63 → to_uint64 (Height req) = Height req) ∧
  (∀ blkBz blobsBz blk blobs,
     Txs req !! 0%nat = Some blkBz →
     NewFromSSZ blkBz
       (ActiveForkVersionForSlot (chainSpec h) (to_uint64 (Height req))) = inl blk →
     Txs req !! 1%nat = Some blobsBz →
     UnmarshalBlobSidecars blobsBz
       (ActiveForkVersionForSlot (chainSpec h) (to_uint64 (Height req))) = inl blobs →
     ∃ svc ups err,
       ProcessBlockAndBlobs (chainService w) blk blobs
         (bool_decide (SyncingToHeight req = Height req)) = (svc, (ups, err)) ∧
       (PreBlock h req w).1.2 = err ∧
       chainService (PreBlock h req w).2 = svc ∧
       calls (PreBlock h req w).2 =
         calls w ++
         [call_ProcessBlockAndBlobs blk blobs
            (bool_decide (SyncingToHeight req = Height req));
          measureEndBlockDuration] ∧
       (EndBlock (PreBlock h req w).1.1).1 =
         (λ u, (convertValidatorUpdate u).1) <$> ups) ∧
  (∀ e,
     ExtractBlobsAndBlockFromRequest req 0 1
       (ActiveForkVersionForSlot (chainSpec h) (to_uint64 (Height req))) = inr e →
     PreBlock h req w =
       ((h, Some e),
        {| chainService := chainService w;
           calls := calls w ++ [measureEndBlockDuration] |})).
Proof.
  split; [apply to_uint64_int64|]. split.
  - intros blkBz blobsBz blk blobs Hblk Hnew Hblobs Hunm.
    destruct (ProcessBlockAndBlobs (chainService w) blk blobs
                (bool_decide (SyncingToHeight req = Height req)))
      as [svc [ups err]] eqn:Hproc.
    exists svc, ups, err. split; [done|].
    rewrite (PreBlock_decoded h req blk blobs w).
    + cbn zeta. rewrite Hproc. cbn. done.
    + unfold ExtractBlobsAndBlockFromRequest, BeaconBlockTxIndex, BlobSidecarsTxIndex.
      by rewrite Hblk, Hnew, Hblobs, Hunm.
  - intros e Hext. unfold PreBlock, defer, BeaconBlockTxIndex, BlobSidecarsTxIndex.
    by rewrite Hext.
Qed.

(** X15: [EndBlock] returns one converted update for every cached update, at
    the position of the update, also when conversions fail; its error is nil
    exactly when no conversion returned an error. *)
Theorem EndBlock_results (h : FinalizeBlockMiddleware) :
  length (EndBlock h).1 = length (valUpdates h) ∧
  (∀ i u, valUpdates h !! i = Some u →
          (EndBlock h).1 !! i = Some (convertValidatorUpdate u).1) ∧
  ((EndBlock h).2 = None ↔
   ∀ u, u ∈ valUpdates h → (convertValidatorUpdate u).2 = None).
Proof.
  unfold EndBlock, MapErr. cbn [fst snd]. split; [by rewrite length_fmap|].
  split.
  - intros i u Hu. by rewrite list_lookup_fmap, Hu.
  - generalize (valUpdates h) as ups. intros ups.
    case_decide as Herrs; split; try done.
    + intros _. induction ups as [|u ups IH]; intros v Hv.
      * by apply elem_of_nil in Hv.
      * simpl in Herrs.
        destruct (convertValidatorUpdate u).2 as [e|] eqn:Hu; [done|].
        apply elem_of_cons in Hv as [->|Hv]; [done|]. by apply IH.
    + intros Hall. destruct Herrs.
      induction ups as [|u ups IH]; [done|]. simpl.
      rewrite (Hall u) by apply list_elem_of_here.
      apply IH. intros v Hv. apply Hall. by apply list_elem_of_further.
Qed.

End finalize.

(** *** A request of two transactions *)

(** Decoders that read the first byte, a chain service that counts the
    blocks and returns the block and each sidecar as updates. *)
Definition sample_NewFromSSZ (bz : list Byte.byte) (forkVersion : Z) : Z + string :=
  match bz with
  | b :: _ => inl (Z.of_N (Byte.to_N b) + forkVersion)
  | [] => inr "empty block"
  end.

Definition sample_Unmarshal (bz : list Byte.byte) (forkVersion : Z)
  : list Z + string :=
  inl ((λ b, Z.of_N (Byte.to_N b)) <$> bz).

Definition sample_ProcessBlockAndBlobs (svc : nat) (blk : Z) (blobs : list Z)
    (syncing : bool) : nat * (list Z * error) :=
  (S svc, (blk :: blobs, None)).

Definition sample_convert (u : Z) : N * error :=
  if decide (0 ≤ u) then (Z.to_N u, None) else (0%N, Some "undefined validator update").

Definition sample_request : FinalizeBlockRequest := {|
  Txs := [[Byte.x05]; [Byte.x01; Byte.x02]];
  Height := 9;
  SyncingToHeight := 9;
|}.

Definition sample_middleware : FinalizeBlockMiddleware (ValidatorUpdate := Z) := {|
  chainSpec := 100;
  valUpdates := [];
|}.

Lemma PreBlock_EndBlock_witness :
  ∃ svc ups err,
    sample_ProcessBlockAndBlobs 0 114 [1; 2]
      (bool_decide (SyncingToHeight sample_request = Height sample_request)) =
      (svc, (ups, err)) ∧
    (PreBlock sample_NewFromSSZ sample_Unmarshal (λ cs slot, cs + slot)
       sample_ProcessBlockAndBlobs sample_middleware sample_request
       (mkWorld 0%nat [])).1.2 = err ∧
    chainService (PreBlock sample_NewFromSSZ sample_Unmarshal (λ cs slot, cs + slot)
       sample_ProcessBlockAndBlobs sample_middleware sample_request
       (mkWorld 0%nat [])).2 = svc ∧
    calls (PreBlock sample_NewFromSSZ sample_Unmarshal (λ cs slot, cs + slot)
       sample_ProcessBlockAndBlobs sample_middleware sample_request
       (mkWorld 0%nat [])).2 =
      [] ++ [call_ProcessBlockAndBlobs 114 [1; 2]
               (bool_decide (SyncingToHeight sample_request = Height sample_request));
             measureEndBlockDuration] ∧
    (EndBlock sample_convert
       (PreBlock sample_NewFromSSZ sample_Unmarshal (λ cs slot, cs + slot)
          sample_ProcessBlockAndBlobs sample_middleware sample_request
          (mkWorld 0%nat [])).1.1).1 =
      (λ u, (sample_convert u).1) <$> ups.
Proof.
  apply (proj1 (proj2 (PreBlock_EndBlock sample_NewFromSSZ sample_Unmarshal
                  (λ cs slot, cs + slot) sample_ProcessBlockAndBlobs sample_convert
                  sample_middleware sample_request (mkWorld 0%nat [])))
           [Byte.x05] [Byte.x01; Byte.x02] 114 [1; 2]);
    reflexivity.
Defined.

Example sample_EndBlock :
  EndBlock sample_convert
    (PreBlock sample_NewFromSSZ sample_Unmarshal (λ cs slot, cs + slot)
       sample_ProcessBlockAndBlobs sample_middleware sample_request
       (mkWorld 0%nat [])).1.1 = ([114%N; 1%N; 2%N], None).
Proof. reflexivity. Qed.

End Middleware.

(** ** mod/primitives/pkg/bytes/utils.go *)

Module Bytes.

(** [make([]byte, n)]: [n] zero bytes. *)
Definition make (n : nat) : list Byte.byte := replicate n Byte.x00.

(** [copy(dst, src)]: the first [min(len(dst), len(src))] bytes of [dst]
    replaced by those of [src]. *)
Definition copy (dst src : list Byte.byte) : list Byte.byte :=
  take (length dst) src ++ drop (length src) dst.

(** [l[i], l[j] = l[j], l[i]]. *)
Definition swap (l : list Byte.byte) (i j : nat) : outcome (list Byte.byte) :=
  x ← index l i;
  y ← index l j;
  Ok (<[j := x]> (<[i := y]> l)).

(** The loop [for i, j := 0, len-1; i < j; i, j = i+1, j-1] of
    [CopyAndReverseEndianess], with a bound on the number of iterations:
    [None] when the bound is reached. *)
Fixpoint reverse_loop (fuel : nat) (i j : Z) (copied : list Byte.byte)
  : option (outcome (list Byte.byte)) :=
  if i <? j then
    match fuel with
    | O => None
    | S fuel' =>
      match swap copied (Z.to_nat i) (Z.to_nat j) with
      | Ok copied' => reverse_loop fuel' (i + 1) (j - 1) copied'
      | Err e => Some (Err e)
      | Panic p => Some (Panic p)
      end
    end
  else Some (Ok copied).

Definition CopyAndReverseEndianess (input : list Byte.byte)
  : option (outcome (list Byte.byte)) :=
  let copied := copy (make (length input)) input in
  reverse_loop (length input) 0 (Z.of_nat (length copied) - 1) copied.

Definition ExtendToSize (slice : list Byte.byte) (length_ : Z) : list Byte.byte :=
  if Z.of_nat (length slice) >=? length_ then slice
  else slice ++ make (Z.to_nat (length_ - Z.of_nat (length slice))).

(** The errors of [UnmarshalTextHelper]: the error of the decoder, or the
    one made with the two lengths. *)
Inductive error : Type :=
| ErrDecode (msg : string)
| ErrIncorrectLength (expected got : nat).

(** [target] is a slice the caller owns: the bytes it holds after the call
    are returned next to the error.  [UnmarshalByteText] is
    [hex.UnmarshalByteText]. *)
Definition UnmarshalTextHelper
    (UnmarshalByteText : list Byte.byte → list Byte.byte + string)
    (target text : list Byte.byte) : list Byte.byte * option error :=
  match UnmarshalByteText text with
  | inr e => (target, Some (ErrDecode e))
  | inl dec =>
    if negb (length dec =? length target)%nat then
      (target, Some (ErrIncorrectLength (length target) (length dec)))
    else (copy target dec, None)
  end.

(** *** Copies *)

Lemma copy_same_length (dst src : list Byte.byte) :
  length dst = length src → copy dst src = src.
Proof.
  intros Hl. unfold copy.
  rewrite take_ge by lia. rewrite drop_ge by lia. apply app_nil_r.
Qed.

Lemma length_copy (dst src : list Byte.byte) :
  length (copy dst src) = length dst.
Proof.
  unfold copy. rewrite length_app, length_take, length_drop. lia.
Qed.

(** *** Reversal *)

(** After [k] iterations the [k] bytes at each end are those of the input in
    reverse order and the bytes between are those of the input. *)
Definition reversed_ends (input copied : list Byte.byte) (k : nat) : Prop :=
  length copied = length input ∧
  ∀ m, (m < length input)%nat →
    copied !! m =
    input !! (if decide (m < k ∨ length input - k ≤ m)%nat
              then (length input - 1 - m)%nat else m).

Lemma reverse_loop_reverses (input : list Byte.byte) (fuel k : nat)
    (copied : list Byte.byte) :
  reversed_ends input copied k →
  (2 * k ≤ length input)%nat →
  (length input ≤ 2 * k + 2 * fuel + 1)%nat →
  reverse_loop fuel (Z.of_nat k) (Z.of_nat (length input) - 1 - Z.of_nat k) copied =
  Some (Ok (reverse input)).
Proof.
  revert k copied. induction fuel as [|fuel IH]; intros k copied [Hlen Hinv] Hk Hfuel.
  - cbn [reverse_loop]. destruct (Z.ltb_spec (Z.of_nat k)
      (Z.of_nat (length input) - 1 - Z.of_nat k)) as [Hlt|Hge]; [lia|].
    do 2 f_equal. apply list_eq. intros m.
    destruct (decide (m < length input)%nat) as [Hm|Hm].
    + rewrite Hinv, reverse_lookup by done.
      case_decide; f_equal; lia.
    + rewrite !lookup_ge_None_2; [done|rewrite length_reverse; lia|lia].
  - cbn [reverse_loop]. destruct (Z.ltb_spec (Z.of_nat k)
      (Z.of_nat (length input) - 1 - Z.of_nat k)) as [Hlt|Hge].
    + rewrite Nat2Z.id.
      replace (Z.to_nat (Z.of_nat (length input) - 1 - Z.of_nat k))
        with (length input - 1 - k)%nat by lia.
      set (j := (length input - 1 - k)%nat).
      assert (k < j)%nat as Hkj by (unfold j; lia).
      assert (j < length input)%nat as Hj by (unfold j; lia).
      pose proof (Hinv k ltac:(lia)) as Hx.
      pose proof (Hinv j Hj) as Hy.
      rewrite decide_False in Hx by lia. rewrite decide_False in Hy by (unfold j; lia).
      destruct (lookup_lt_is_Some_2 input k ltac:(lia)) as [x Hxi].
      destruct (lookup_lt_is_Some_2 input j Hj) as [y Hyi].
      rewrite Hxi in Hx. rewrite Hyi in Hy.
      unfold swap, index. rewrite Hx. cbn [mbind outcome_bind]. rewrite Hy.
      cbn [mbind outcome_bind].
      replace (Z.of_nat k + 1) with (Z.of_nat (S k)) by lia.
      replace (Z.of_nat (length input) - 1 - Z.of_nat k - 1)
        with (Z.of_nat (length input) - 1 - Z.of_nat (S k)) by lia.
      apply IH; [|lia|lia].
      split; [by rewrite !length_insert|].
      intros m Hm.
      destruct (decide (m = j)) as [->|Hmj].
      * rewrite list_lookup_insert_eq by (rewrite length_insert; lia).
        rewrite decide_True by (unfold j; lia).
        rewrite <- Hxi. f_equal. unfold j. lia.
      * rewrite list_lookup_insert_ne by done.
        destruct (decide (m = k)) as [->|Hmk].
        -- rewrite list_lookup_insert_eq by lia.
           rewrite decide_True by lia. by rewrite <- Hyi.
        -- rewrite list_lookup_insert_ne by done. rewrite Hinv by done.
           repeat case_decide; try done; unfold j in *; lia.
    + do 2 f_equal. apply list_eq. intros m.
      destruct (decide (m < length input)%nat) as [Hm|Hm].
      * rewrite Hinv, reverse_lookup by done.
        case_decide; f_equal; lia.
      * rewrite !lookup_ge_None_2; [done|rewrite length_reverse; lia|lia].
Qed.

(** X16: [CopyAndReverseEndianess] returns the bytes of the input in reverse
    order: the loop ends within [len(input)] iterations and indexes no byte
    out of range; reversing twice gives the input back. *)
Theorem CopyAndReverseEndianess_reverse (input : list Byte.byte) :
  CopyAndReverseEndianess input = Some (Ok (reverse input)) ∧
  (∀ once, CopyAndReverseEndianess input = Some (Ok once) →
           CopyAndReverseEndianess once = Some (Ok input)).
Proof.
  assert (∀ l, CopyAndReverseEndianess l = Some (Ok (reverse l))) as Hrev.
  { intros l. unfold CopyAndReverseEndianess, make.
    rewrite copy_same_length by (by rewrite length_replicate).
    replace (Z.of_nat (length l) - 1) with (Z.of_nat (length l) - 1 - Z.of_nat 0) by lia.
    apply (reverse_loop_reverses l (length l) 0); [|lia|lia].
    split; [done|]. intros m Hm. by rewrite decide_False by lia. }
  split; [apply Hrev|].
  intros once Honce. rewrite Hrev in Honce. injection Honce as <-.
  by rewrite Hrev, reverse_involutive.
Qed.

(** *** Extension *)

(** X17: [ExtendToSize] never shortens a slice and never changes its bytes:
    the result has [max(len(slice), length)] bytes, starts with the slice and
    holds zero bytes after it; a length that is negative or not above
    [len(slice)] returns the slice; extending twice is extending to the
    larger length. *)
Theorem ExtendToSize_spec (slice : list Byte.byte) (length_ length2 : Z) :
  Z.of_nat (length (ExtendToSize slice length_)) =
    Z.max (Z.of_nat (length slice)) length_ ∧
  take (length slice) (ExtendToSize slice length_) = slice ∧
  (∀ i, (length slice ≤ i < length (ExtendToSize slice length_))%nat →
        ExtendToSize slice length_ !! i = Some Byte.x00) ∧
  (length_ ≤ Z.of_nat (length slice) → ExtendToSize slice length_ = slice) ∧
  ExtendToSize (ExtendToSize slice length_) length2 =
    ExtendToSize slice (Z.max length_ length2).
Proof.
  assert (∀ (s : list Byte.byte) n,
            ExtendToSize s n =
            s ++ replicate (Z.to_nat (n - Z.of_nat (length s))) Byte.x00) as Hext.
  { intros s n. unfold ExtendToSize, make.
    destruct (Z.geb_spec (Z.of_nat (length s)) n) as [Hge|Hlt]; [|done].
    replace (Z.to_nat (n - Z.of_nat (length s))) with 0%nat by lia.
    by rewrite app_nil_r. }
  repeat split.
  - rewrite Hext, length_app, length_replicate. lia.
  - rewrite Hext. apply take_app_length.
  - intros i Hi. rewrite Hext in *. rewrite length_app, length_replicate in Hi.
    rewrite lookup_app_r by lia. apply lookup_replicate_2. lia.
  - intros Hle. unfold ExtendToSize.
    by destruct (Z.geb_spec (Z.of_nat (length slice)) length_); [|lia].
  - rewrite !Hext, length_app, length_replicate, <- app_assoc. f_equal.
    rewrite <- replicate_add. f_equal. lia.
Qed.

(** *** Unmarshalling into a target *)

(** X18: [UnmarshalTextHelper] writes the target only when the text decodes
    to exactly [len(target)] bytes, and then the target holds the decoded
    bytes; in every other case it returns an error and the target is as
    before.  The length of the target never changes. *)
Theorem UnmarshalTextHelper_spec
    (UnmarshalByteText : list Byte.byte → list Byte.byte + string)
    (target text : list Byte.byte) :
  length (UnmarshalTextHelper UnmarshalByteText target text).1 = length target ∧
  ((UnmarshalTextHelper UnmarshalByteText target text).2 = None ↔
   ∃ dec, UnmarshalByteText text = inl dec ∧ length dec = length target) ∧
  (∀ dec, UnmarshalByteText text = inl dec → length dec = length target →
          UnmarshalTextHelper UnmarshalByteText target text = (dec, None)) ∧
  ((UnmarshalTextHelper UnmarshalByteText target text).2 ≠ None →
   (UnmarshalTextHelper UnmarshalByteText target text).1 = target).
Proof.
  unfold UnmarshalTextHelper.
  destruct (UnmarshalByteText text) as [dec|e].
  - destruct (Nat.eqb_spec (length dec) (length target)) as [Heq|Hne]; cbn [negb fst snd].
    + rewrite copy_same_length by done. repeat split; try done.
      * by exists dec.
      * by intros dec' [= <-] _.
    + repeat split; try done.
      * by intros (dec' & [= <-] & ?).
      * by intros dec' [= <-] ?.
  - cbn [fst snd]. repeat split; try done. by intros (dec & ? & ?).
Qed.

Example sample_reverse :
  CopyAndReverseEndianess [Byte.x01; Byte.x02; Byte.x03; Byte.x04; Byte.x05] =
  Some (Ok [Byte.x05; Byte.x04; Byte.x03; Byte.x02; Byte.x01]).
Proof. reflexivity. Qed.

Example sample_extend :
  ExtendToSize [Byte.x01; Byte.x02] 4 = [Byte.x01; Byte.x02; Byte.x00; Byte.x00] ∧
  ExtendToSize [Byte.x01; Byte.x02] (-3) = [Byte.x01; Byte.x02].
Proof. split; reflexivity. Qed.

End Bytes.

(** ** mod/cli/pkg/builder/options.go *)

Module Builder.

Section options.

(** The [any] of components and suppliers, and the types of the three
    function fields. *)
Context {Any RunHandler RootCmdSetup NodeBuilderFunc : Type}.
(** [cmdlib.DefaultRootCommandSetup]. *)
Context (DefaultRootCommandSetup : RootCmdSetup).

(** The fields of [CLIBuilder] that the options write (the struct is
    declared in another file of the package); a function field that was not
    set is nil. *)
Record CLIBuilder : Type := {
  name : string;
  description : string;
  components : list Any;
  suppliers : list Any;
  runHandler : option RunHandler;
  rootCmdSetup : option RootCmdSetup;
  nodeBuilderFunc : option NodeBuilderFunc;
}.

(** [Opt]: a function that modifies the builder it is given. *)
Definition Opt : Type := CLIBuilder → CLIBuilder.

Definition WithName (n : string) : Opt := λ cb,
  {| name := n; description := description cb; components := components cb;
     suppliers := suppliers cb; runHandler := runHandler cb;
     rootCmdSetup := rootCmdSetup cb; nodeBuilderFunc := nodeBuilderFunc cb |}.

Definition WithDescription (d : string) : Opt := λ cb,
  {| name := name cb; description := d; components := components cb;
     suppliers := suppliers cb; runHandler := runHandler cb;
     rootCmdSetup := rootCmdSetup cb; nodeBuilderFunc := nodeBuilderFunc cb |}.

Definition WithComponents (cs : list Any) : Opt := λ cb,
  {| name := name cb; description := description cb; components := cs;
     suppliers := suppliers cb; runHandler := runHandler cb;
     rootCmdSetup := rootCmdSetup cb; nodeBuilderFunc := nodeBuilderFunc cb |}.

Definition SupplyModuleDeps (deps : list Any) : Opt := λ cb,
  {| name := name cb; description := description cb; components := components cb;
     suppliers := suppliers cb ++ deps; runHandler := runHandler cb;
     rootCmdSetup := rootCmdSetup cb; nodeBuilderFunc := nodeBuilderFunc cb |}.

Definition WithRunHandler (rh : RunHandler) : Opt := λ cb,
  {| name := name cb; description := description cb; components := components cb;
     suppliers := suppliers cb; runHandler := Some rh;
     rootCmdSetup := rootCmdSetup cb; nodeBuilderFunc := nodeBuilderFunc cb |}.

Definition WithDefaultRootCommandSetup : Opt := λ cb,
  {| name := name cb; description := description cb; components := components cb;
     suppliers := suppliers cb; runHandler := runHandler cb;
     rootCmdSetup := Some DefaultRootCommandSetup;
     nodeBuilderFunc := nodeBuilderFunc cb |}.

Definition WithNodeBuilderFunc (f : NodeBuilderFunc) : Opt := λ cb,
  {| name := name cb; description := description cb; components := components cb;
     suppliers := suppliers cb; runHandler := runHandler cb;
     rootCmdSetup := rootCmdSetup cb; nodeBuilderFunc := Some f |}.

(** Options applied to a builder one after the other. *)
Definition apply_opts (opts : list Opt) (cb : CLIBuilder) : CLIBuilder :=
  foldl (λ cb opt, opt cb) cb opts.

(** The options that write neither the components nor the suppliers. *)
Inductive scalar_opt : Opt → Prop :=
| scalar_WithName n : scalar_opt (WithName n)
| scalar_WithDescription d : scalar_opt (WithDescription d)
| scalar_WithRunHandler rh : scalar_opt (WithRunHandler rh)
| scalar_WithDefaultRootCommandSetup : scalar_opt WithDefaultRootCommandSetup
| scalar_WithNodeBuilderFunc f : scalar_opt (WithNodeBuilderFunc f).

(** The options of a list, each a [SupplyModuleDeps], a [WithComponents] or
    one of the others; what they supply, in order, and the components the
    last [WithComponents] sets. *)
Inductive opts_give : list Opt → list Any → option (list Any) → Prop :=
| give_nil : opts_give [] [] None
| give_scalar opts opt deps cs :
    opts_give opts deps cs → scalar_opt opt → opts_give (opts ++ [opt]) deps cs
| give_supply opts d deps cs :
    opts_give opts deps cs →
    opts_give (opts ++ [SupplyModuleDeps d]) (deps ++ d) cs
| give_components opts c deps cs :
    opts_give opts deps cs →
    opts_give (opts ++ [WithComponents c]) deps (Some c).

(** X19: over any sequence of options, the suppliers accumulate and the
    components are replaced: the builder ends with its suppliers followed by
    the dependencies of every [SupplyModuleDeps], in order, and with the
    components of the last [WithComponents] (its own when there is none). *)
Theorem apply_opts_suppliers_components
    (opts : list Opt) (deps : list Any) (cs : option (list Any)) (cb : CLIBuilder) :
  opts_give opts deps cs →
  suppliers (apply_opts opts cb) = suppliers cb ++ deps ∧
  components (apply_opts opts cb) = default (components cb) cs.
Proof.
  unfold apply_opts.
  induction 1 as [|opts opt deps cs _ [IHs IHc] Hopt
                  |opts d deps cs _ [IHs IHc]
                  |opts c deps cs _ [IHs IHc]].
  - cbn. by rewrite app_nil_r.
  - rewrite foldl_app. cbn [foldl]. by destruct Hopt.
  - rewrite foldl_app. cbn [foldl SupplyModuleDeps suppliers components].
    by rewrite IHs, app_assoc.
  - rewrite foldl_app. by cbn [foldl].
Qed.

End options.

Lemma apply_opts_suppliers_components_witness :
  suppliers
    (apply_opts
       [SupplyModuleDeps (RunHandler := unit) (RootCmdSetup := unit)
          (NodeBuilderFunc := unit) [1; 2];
        WithName "beacond"; WithComponents [7]; SupplyModuleDeps [3];
        WithComponents [8; 9]]
       {| name := ""; description := ""; components := []; suppliers := [0];
          runHandler := None; rootCmdSetup := None; nodeBuilderFunc := None |}) =
    [0] ++ (([] ++ [1; 2]) ++ [3]) ∧
  components
    (apply_opts
       [SupplyModuleDeps (RunHandler := unit) (RootCmdSetup := unit)
          (NodeBuilderFunc := unit) [1; 2];
        WithName "beacond"; WithComponents [7]; SupplyModuleDeps [3];
        WithComponents [8; 9]]
       {| name := ""; description := ""; components := []; suppliers := [0];
          runHandler := None; rootCmdSetup := None; nodeBuilderFunc := None |}) =
    default [] (Some [8; 9]).
Proof.
  apply (apply_opts_suppliers_components ()
           [SupplyModuleDeps [1; 2]; WithName "beacond"; WithComponents [7];
            SupplyModuleDeps [3]; WithComponents [8; 9]]).
  eapply (give_components () [_; _; _; _]).
  eapply (give_supply () [_; _; _]).
  eapply (give_components () [_; _]).
  eapply (give_scalar () [_]); [|constructor].
  eapply (give_supply () []).
  constructor.
Defined.

End Builder.
